(** * ApiRace: the provider race of t-mock

    A shallow embedding of [ApiProvider] and [ApiRace] (the provider
    descriptor and the race coordinator) and the properties of the
    ordering, the attempt loop, the per-attempt timer and the response
    normalisation.

    JavaScript numbers that the code uses as list indices, durations and
    status codes are integers here ([Z]); an optional property is an
    [option]; a [Dict] that the code builds by assignment is a [gmap]; a
    [Dict] that the code only enumerates is the list of its entries in
    enumeration order. Asynchronous code is a state-passing computation
    over the state of the outside world that logs what it does; time is
    logical: a transport call tells after how many milliseconds its
    promise settles, a response how long its body takes to read, and a
    race compares that with the delay of the timer. A promise may reject
    with any value: with an [Error] object, and also with [undefined] or
    [null]. *)

From Stdlib Require Import ZArith List Bool Lia.
From stdpp Require Import base option strings gmap list.

Local Open Scope string_scope.
Local Open Scope list_scope.
Local Open Scope Z_scope.

(** ** JavaScript values *)

#[local] Set Warnings "-register-all".

(** The values that travel as request bodies and JSON payloads. *)
Inductive JsValue : Type :=
| JNull
| JBool (b : bool)
| JNum (n : Z)
| JStr (s : string)
| JArr (items : list JsValue)
| JObj (fields : list (string * JsValue)).

#[local] Set Warnings "register-all".

(** [!!v] *)
Definition truthy (v : JsValue) : bool :=
  match v with
  | JNull => false
  | JBool b => b
  | JNum n => negb (n =? 0)
  | JStr s => negb (String.eqb s EmptyString)
  | JArr _ | JObj _ => true
  end.

(** [typeof v === 'object'] *)
Definition typeof_object (v : JsValue) : bool :=
  match v with
  | JNull | JArr _ | JObj _ => true
  | JBool _ | JNum _ | JStr _ => false
  end.

(** [!n] on an optional number: [undefined] and [0] are falsy. *)
Definition falsy_number (n : option Z) : bool :=
  match n with
  | None => true
  | Some k => k =? 0
  end.

(** [!!b] on an optional boolean. *)
Definition truthy_flag (b : option bool) : bool :=
  match b with
  | Some true => true
  | _ => false
  end.

(** What a [throw] carries and what a promise rejects with, by what the
    code asks of it, which is its [message]: an [Error] object, with its
    class name and its message (any other value whose [message] reads as
    a text is taken as such an object), or one of the two values that have
    no properties, [undefined] and [null]. *)
Inductive JsError : Type :=
| ErrorObject (err_name message : string)
| Undefined
| Null.

(** [new Error(msg)] *)
Definition Error (msg : string) : JsError := ErrorObject "Error" msg.

(** [new TypeError(msg)] *)
Definition TypeError (msg : string) : JsError := ErrorObject "TypeError" msg.

(** [err.message]: reading a property of [undefined] or of [null] throws
    a [TypeError] (with the wording of V8). *)
Definition read_message (err : JsError) : JsError + string :=
  match err with
  | ErrorObject _ msg => inr msg
  | Undefined =>
      inl (TypeError "Cannot read properties of undefined (reading 'message')")
  | Null =>
      inl (TypeError "Cannot read properties of null (reading 'message')")
  end.

(** [obj[key] = value] on an object created by a literal: every key makes
    an own property but [__proto__], whose inherited setter ignores a
    string. *)
Definition obj_assign {V : Type} (obj : gmap string V) (key : string) (value : V)
  : gmap string V :=
  if String.eqb key "__proto__" then obj else <[key := value]> obj.

(** [for (const [key, value] of entries) obj[key] = f(value)] *)
Definition assign_entries {A V : Type} (f : A -> V) (entries : list (string * A))
    (obj : gmap string V) : gmap string V :=
  fold_left (fun o kv => obj_assign o (fst kv) (f (snd kv))) entries obj.

(** [results.splice(start, 0, item)]: a negative start counts from the end,
    and the insertion point is clamped to the bounds of the array. *)
Definition splice_insert {A : Type} (results : list A) (start : Z) (item : A) : list A :=
  let len := Z.of_nat (length results) in
  let at_ := if start <? 0 then Z.max (len + start) 0 else Z.min start len in
  firstn (Z.to_nat at_) results ++ item :: skipn (Z.to_nat at_) results.

(** ** ApiProvider *)

Record ApiProvider : Type := {
  _priority : option Z;
  _method : string;
  _url : string;
  _pathname : string;
  _search : option (list (string * string));
  _body : option JsValue;
  _headers : option (list (string * string));
  _name : string;
  _responseType : string
}.

Definition responseType (p : ApiProvider) : string := _responseType p.
Definition priority (p : ApiProvider) : option Z := _priority p.
Definition name (p : ApiProvider) : string := _name p.

Definition with_priority (p : ApiProvider) (value : option Z) : ApiProvider :=
  {| _priority := value; _method := _method p; _url := _url p;
     _pathname := _pathname p; _search := _search p; _body := _body p;
     _headers := _headers p; _name := _name p;
     _responseType := _responseType p |}.

(** The [priority] setter; its argument is a number here, so the
    [typeof value !== 'number'] guard never fires. *)
Definition set_priority (p : ApiProvider) (value : Z) : ApiProvider :=
  with_priority p (Some value).

Definition removePriority (p : ApiProvider) : ApiProvider :=
  with_priority p None.

(** ** Ordering *)

(** One iteration of the loop of [#orderProviders]. A priority is an
    integer here; [splice] would truncate a fractional one, so that a
    priority between 0 and 1, which is truthy, inserts at index 0. *)
Definition order_step (results : list ApiProvider) (provider : ApiProvider)
  : list ApiProvider :=
  if falsy_number (priority provider)
  then results ++ [provider]
  else splice_insert results (default 0 (priority provider)) provider.

(** [#orderProviders], on the stored provider list. *)
Definition orderProviders (providers : list ApiProvider) : list ApiProvider :=
  fold_left order_step providers [].

(** ** Responses *)

(** A value of a form-data entry: a string or a file. *)
Inductive FormDataEntryValue : Type :=
| FormString (s : string)
| FormFile (filename : string).

(** [value.toString()] on a form-data entry. *)
Definition entry_toString (v : FormDataEntryValue) : string :=
  match v with
  | FormString s => s
  | FormFile _ => "[object File]"
  end.

(** The transport's [Response], by what the code asks of it: the status,
    the header iteration, and the three body readers, each of which
    resolves or rejects when it is left alone. Reading the body takes
    [body_time] milliseconds; [body_on_abort] is what a read that is
    pending rejects with when the signal of the request is aborted (a
    response of the platform follows the signal, another one need not). *)
Record Response : Type := {
  status : Z;
  headers_entries : list (string * string);
  json : JsError + JsValue;
  text : JsError + string;
  formData : JsError + list (string * FormDataEntryValue);
  body_time : Z;
  body_on_abort : option JsError
}.

(** The [payload] of a result: what [res.json()] gave, or an object built
    by the code. *)
Inductive Payload : Type :=
| PayloadJson (v : JsValue)
| PayloadDict (d : gmap string string).

Record ProviderResponse : Type := {
  payload : Payload;
  provider : string;
  responseStatus : Z;
  responseHeaders : gmap string string
}.

(** ** Effects *)

(** How an asynchronous call ends: its promise resolves, rejects, or stays
    pending for ever. *)
Inductive Completion (A : Type) : Type :=
| Returned (a : A)
| Thrown (e : JsError)
| Pending.
Arguments Returned {A} a.
Arguments Thrown {A} e.
Arguments Pending {A}.

(** The second argument of [fetch]. [init_signal] tells whether an abort
    signal is attached. *)
Record RequestInit : Type := {
  init_body : option string;
  init_signal : bool;
  init_method : string;
  init_headers : option (list (string * string))
}.

Inductive BodyReader : Type := ReadJson | ReadText | ReadFormData.

(** What one attempt does to the outside, in order. [EvAbort] is the
    call of [ac.abort()] by a timer that fires while its race is pending.
    [EvTimerPending] marks the point at which a race is settled by its
    transport call with its timer still armed: the timer is never
    cleared, so its callback still calls [ac.abort()] when the delay is
    over, while the attempt reads the body or later. *)
Inductive ReqEvent : Type :=
| EvFetch (url : string) (init : RequestInit)
| EvProxy (p : ApiProvider) (signal : bool)
| EvSetTimeout (delay : Z)
| EvAbort
| EvTimerPending
| EvBody (reader : BodyReader)
| EvHeaders.

(** What [run()] does: it calls [#request] on a provider, which performs
    [evs] and ends as [c], and it writes warnings. *)
Inductive RunEvent : Type :=
| Attempted (p : ApiProvider) (evs : list ReqEvent) (c : Completion ProviderResponse)
| Warned (msg : string).

(** What a transport call gives: a promise that settles by itself,
    [after] milliseconds from the call, or one that never does; or the
    call throws and returns no promise. *)
Inductive Settlement : Type :=
| Settles (after : Z) (v : JsError + Response)
| Unsettled
| Throws (e : JsError).

(** The answer of the transport to one call: its settlement, and whether
    its promise rejects inside [abort()] when it is handed a signal and is
    still pending at that time. *)
Record TransportReply : Type := {
  settlement : Settlement;
  on_abort : option JsError
}.

Section Effects.
Context {W E : Type}.

(** A computation over the state [W] of the outside world that logs
    events of type [E]. *)
Definition M (A : Type) : Type := W -> Completion A * list E * W.

Definition ret {A} (a : A) : M A := fun w => (Returned a, [], w).
Definition throw {A} (e : JsError) : M A := fun w => (Thrown e, [], w).
Definition hang {A} : M A := fun w => (Pending, [], w).
Definition emit (ev : E) : M unit := fun w => (Returned tt, [ev], w).

Definition bind {A B} (m : M A) (k : A -> M B) : M B :=
  fun w =>
    match m w with
    | (Returned a, evs, w1) =>
        match k a w1 with
        | (c, evs', w2) => (c, evs ++ evs', w2)
        end
    | (Thrown e, evs, w1) => (Thrown e, evs, w1)
    | (Pending, evs, w1) => (Pending, evs, w1)
    end.

(** [await] of a promise that has settled with [r]. *)
Definition settle {A} (r : JsError + A) : M A :=
  match r with
  | inl e => throw e
  | inr a => ret a
  end.
End Effects.

Notation "'let*' x ':=' m 'in' k" := (bind m (fun x => k))
  (at level 10, x pattern, m at level 100, k at level 200).

(** ** The host *)

(** What the code takes from its platform and from the [typesdk] package:
    the [URL] class, [encodeURIComponent], [isPlainObject],
    [jsonSafeStringify], [fetch] and [setTimeout]. [World] is the state of
    everything outside the program, which a transport call may read and
    change. [setTimeout_delay] is the delay that [setTimeout] arms for a
    requested one (hosts clamp it). [timer_wins_tie] settles a race whose
    two promises settle in the same millisecond. *)
Class Host : Type := {
  World : Type;
  URL : Type;
  new_URL : string -> string -> JsError + URL;
  URL_set_search : URL -> string -> URL;
  URL_toString : URL -> string;
  encodeURIComponent : string -> string;
  isPlainObject : JsValue -> bool;
  jsonSafeStringify : JsValue -> option string;
  fetch : string -> RequestInit -> World -> TransportReply * World;
  setTimeout_delay : Z -> Z;
  timer_wins_tie : bool
}.

Section Race.
Context {host : Host}.

Local Abbreviation ReqM := (@M World ReqEvent).
Local Abbreviation RunM := (@M World RunEvent).

(** A call into the outside world. *)
Definition perform {E A : Type} (call : World -> A * World) : @M World E A :=
  fun w => let (a, w') := call w in (Returned a, [], w').

(** *** The [http] getter *)

Record HttpProps : Type := {
  http_method : string;
  http_url : URL;
  http_pathname : string;
  http_search : option (list (string * string));
  http_body : option JsValue;
  http_headers : option (list (string * string))
}.

Definition _encodeSearchParams (params : list (string * string)) : string :=
  String.concat "&"
    (map (fun kv => fst kv +:+ "=" +:+ encodeURIComponent (snd kv)) params).

(** [provider.http]; [new URL] throws on a base it cannot parse. *)
Definition http (p : ApiProvider) : JsError + HttpProps :=
  match new_URL (_pathname p) (_url p) with
  | inl e => inl e
  | inr u =>
      let u' := match _search p with
                | Some params => URL_set_search u (_encodeSearchParams params)
                | None => u
                end in
      inr {| http_method := _method p; http_url := u';
             http_pathname := _pathname p; http_search := _search p;
             http_body := _body p; http_headers := _headers p |}
  end.

(** *** Options *)

Definition ProxyFn : Type := ApiProvider -> bool -> World -> TransportReply * World.

(** An element of the [providers] array: a provider, or anything else. *)
Inductive ArrayItem : Type :=
| ItemProvider (p : ApiProvider)
| ItemOther (v : JsValue).

(** [providers]: an array, or a [ProviderListWithPriority], given by its
    entries in the order of [Object.values]. *)
Inductive ProvidersInit : Type :=
| ProvidersArray (items : list ArrayItem)
| ProvidersDict (entries : list (string * (ApiProvider * Z))).

(** [RaceInit]. [proxy_symbol] is the property under the [$proxy] symbol,
    [proxy_string] the property named [$proxy]. *)
Record RaceInit : Type := {
  providers : ProvidersInit;
  timeoutPerAttempt : option Z;
  maxAttempts : option Z;
  timeout : option Z;
  retryOnFail : option bool;
  maxRetry : option Z;
  proxy_symbol : option ProxyFn;
  proxy_string : option ProxyFn
}.

Record ApiRace : Type := {
  _providers : list ApiProvider;
  _options : RaceInit
}.

(** *** [#parseResponse] *)

(** [for (const [key, value] of res.headers.entries()) responseHeaders[key] = value] *)
Definition collect_headers (res : Response) : gmap string string :=
  assign_entries (fun v => v) (headers_entries res) ∅.

(** [Object.assign(obj, { payload, provider, responseStatus, responseHeaders })]
    after the header loop. *)
Definition normalized (res : Response) (p : ApiProvider) (pl : Payload)
  : ReqM ProviderResponse :=
  let* _ := emit EvHeaders in
  ret {| payload := pl; provider := name p;
         responseStatus := status res;
         responseHeaders := collect_headers res |}.

Definition parseResponse (res : Response) (p : ApiProvider) : ReqM ProviderResponse :=
  let rt := responseType p in
  if String.eqb rt "application/json" then
    let* _ := emit (EvBody ReadJson) in
    let* pl := settle (json res) in
    normalized res p (PayloadJson pl)
  else if String.eqb rt "application/octet-stream" then
    throw (Error "Octet stream not supported yet")
  else if String.eqb rt "application/x-www-form-urlencoded" then
    let* _ := emit (EvBody ReadFormData) in
    let* responseBody := settle (formData res) in
    normalized res p (PayloadDict (assign_entries entry_toString responseBody ∅))
  else if String.eqb rt "text/plain" then
    let* _ := emit (EvBody ReadText) in
    let* t := settle (text res) in
    normalized res p (PayloadDict {[ "$text" := t ]})
  else if String.eqb rt "x-application/protobuf" then
    throw (Error "Protobuf not supported yet")
  else if String.eqb rt "text/xml" then
    let* _ := emit (EvBody ReadText) in
    let* x := settle (text res) in
    normalized res p (PayloadDict {[ "$xml" := x ]})
  else
    throw (Error "Invalid response type").

(** *** [#request] *)

(** The request body: [jsonSafeStringify(body) ?? '{}'] for a truthy
    plain object, [undefined] for anything else. *)
Definition request_body (b : option JsValue) : option string :=
  match b with
  | Some v =>
      if truthy v && typeof_object v && isPlainObject v
      then Some (default "{}" (jsonSafeStringify v))
      else None
  | None => None
  end.

(** Does the transport, settling [after] milliseconds after its call, win
    against a timer requested for [T] milliseconds? *)
Definition transport_first (after T : Z) : bool :=
  if timer_wins_tie
  then after <? setTimeout_delay T
  else after <=? setTimeout_delay T.

(** [await transport_call] with no timer: the call is logged as [ev]. *)
Definition await_call (ev : ReqEvent) (call : World -> TransportReply * World)
  : ReqM Response :=
  let* _ := emit ev in
  let* reply := perform call in
  match settlement reply with
  | Settles _ v => settle v
  | Unsettled => hang
  | Throws e => throw e
  end.

(** The callback of [setTimeout]: [ac.abort()], then
    [reject(new Error('Request timeout'))]. A transport whose promise
    rejects inside [abort()] has settled the race before [reject] runs. *)
Definition timer_fires (reply : TransportReply) : ReqM Response :=
  let* _ := emit EvAbort in
  match on_abort reply with
  | Some e => throw e
  | None => throw (Error "Request timeout")
  end.

(** Does a timer that fires [remaining] milliseconds after the body read
    has begun fire while the body is read? *)
Definition fires_while_reading (remaining : Z) (res : Response) : bool :=
  if timer_wins_tie
  then remaining <=? body_time res
  else remaining <? body_time res.

(** The response as the attempt reads it with a timer left armed that
    fires [remaining] milliseconds later: when it fires while the body is
    read, on a response that follows the signal, the read rejects. *)
Definition read_under_timer (remaining : Z) (res : Response) : Response :=
  match body_on_abort res with
  | Some e =>
      if fires_while_reading remaining res
      then {| status := status res; headers_entries := headers_entries res;
              json := inl e; text := inl e; formData := inl e;
              body_time := body_time res; body_on_abort := body_on_abort res |}
      else res
  | None => res
  end.

(** The transport has settled the race: the timer stays armed, and fires
    [remaining] milliseconds later. *)
Definition transport_wins (remaining : Z) (v : JsError + Response) : ReqM Response :=
  let* _ := emit EvTimerPending in
  let* res := settle v in
  ret (read_under_timer remaining res).

(** [await Promise.race([transport_call, timer])]: the call is issued
    with the signal, then the timer is armed; a call that throws leaves
    the array of the race unfinished, and no timer is armed. The timer is
    never cleared: when the transport wins, the callback still runs
    later, on a race that is settled, and aborts the signal then:
    [#parseResponse] reads the body of the response under that timer. *)
Definition await_race (ev : ReqEvent) (call : World -> TransportReply * World)
    (T : Z) : ReqM Response :=
  let* _ := emit ev in
  let* reply := perform call in
  match settlement reply with
  | Throws e => throw e
  | Settles after v =>
      let* _ := emit (EvSetTimeout T) in
      if transport_first after T
      then transport_wins (setTimeout_delay T - after) v
      else timer_fires reply
  | Unsettled =>
      let* _ := emit (EvSetTimeout T) in
      timer_fires reply
  end.

Definition getProxyPromise (opts : RaceInit) (p : ApiProvider) (runner : ProxyFn)
  : ReqM Response :=
  if falsy_number (timeoutPerAttempt opts)
  then await_call (EvProxy p false) (runner p false)
  else await_race (EvProxy p true) (runner p true)
         (default 0 (timeoutPerAttempt opts)).

Definition fetch_init (h : HttpProps) (body : option string) (signal : bool)
  : RequestInit :=
  {| init_body := body; init_signal := signal;
     init_method := http_method h; init_headers := http_headers h |}.

(** [getPromise]; the [http] getter, read again here, gives [h] again. *)
Definition getPromise (opts : RaceInit) (p : ApiProvider) (h : HttpProps)
    (body : option string) : ReqM Response :=
  let proxy := match proxy_symbol opts with
               | Some f => Some f
               | None => proxy_string opts
               end in
  match proxy with
  | Some runner => getProxyPromise opts p runner
  | None =>
      let url := URL_toString (http_url h) in
      if falsy_number (timeoutPerAttempt opts)
      then await_call (EvFetch url (fetch_init h body false))
             (fetch url (fetch_init h body false))
      else await_race (EvFetch url (fetch_init h body true))
             (fetch url (fetch_init h body true))
             (default 0 (timeoutPerAttempt opts))
  end.

Definition request (opts : RaceInit) (p : ApiProvider) : ReqM ProviderResponse :=
  let* h := settle (http p) in
  let body := request_body (http_body h) in
  let* res := getPromise opts p h body in
  parseResponse res p.

(** *** [#run] *)

(** [`[ApiRace] ${provider.name} failed with error: ${err.message}`],
    once [err.message] is read. *)
Definition failed_msg (p : ApiProvider) (msg : string) : string :=
  "[ApiRace] " +:+ name p +:+ " failed with error: " +:+ msg.

Definition retrying_msg (p : ApiProvider) : string :=
  "[ApiRace] " +:+ name p +:+ " retrying...".

(** The [for] loop of [#run] over the ordered providers: [Some] result
    after [break], [None] when the loop runs out. [Attempted] records
    the call of [#request] and how it ended. The [catch] block reads
    [err.message] before it warns: on a rejection with [undefined] or
    [null] that throws, out of the loop. *)
Fixpoint race_loop (opts : RaceInit) (ps : list ApiProvider)
  : RunM (option ProviderResponse) :=
  match ps with
  | [] => ret None
  | p :: rest =>
      fun w =>
        let '(c, evs, w1) := request opts p w in
        (let* _ := emit (Attempted p evs c) in
         match c with
         | Returned result => ret (Some result)
         | Thrown err =>
             let* msg := settle (read_message err) in
             let* _ := emit (Warned (failed_msg p msg)) in
             if truthy_flag (retryOnFail opts)
             then let* _ := emit (Warned (retrying_msg p)) in
                  race_loop opts rest
             else throw err
         | Pending => hang
         end) w1
  end.

Definition run (race : ApiRace) : RunM ProviderResponse :=
  let* result := race_loop (_options race) (orderProviders (_providers race)) in
  match result with
  | None => throw (Error "No providers available")
  | Some r => ret r
  end.

(** *** The constructor *)

(** [#shortProvidersList]: each entry writes its priority into its
    provider; the entries are taken to hold distinct provider objects. *)
Fixpoint shortProvidersList (entries : list (string * (ApiProvider * Z)))
  : list ApiProvider :=
  match entries with
  | [] => []
  | (_, (p, prio)) :: rest => set_priority p prio :: shortProvidersList rest
  end.

(** [items.every(item => item instanceof ApiProvider)], with the
    providers when it holds. *)
Fixpoint every_provider (items : list ArrayItem) : option (list ApiProvider) :=
  match items with
  | [] => Some []
  | ItemProvider p :: rest => option_map (cons p) (every_provider rest)
  | ItemOther _ :: _ => None
  end.

Definition constructor (props : RaceInit) : JsError + ApiRace :=
  match providers props with
  | ProvidersDict entries =>
      inr {| _providers := shortProvidersList entries; _options := props |}
  | ProvidersArray items =>
      match every_provider items with
      | Some ps => inr {| _providers := ps; _options := props |}
      | None => inl (TypeError "Invalid providers list")
      end
  end.

(** *** Reading an attempt *)

(** How a settled promise completes an [await]. *)
Definition completion_of {A : Type} (v : JsError + A) : Completion A :=
  match v with
  | inl e => Thrown e
  | inr a => Returned a
  end.

(** What a race that the transport call has settled with [v] hands to
    the attempt, its timer firing [remaining] milliseconds later. *)
Definition race_value (remaining : Z) (v : JsError + Response) : JsError + Response :=
  match v with
  | inl e => inl e
  | inr res => inr (read_under_timer remaining res)
  end.

(** The transport call that [getPromise] issues, with or without the
    signal: its log entry and its effect on the world. *)
Definition transport (opts : RaceInit) (p : ApiProvider) (h : HttpProps)
    (body : option string) (signal : bool)
  : ReqEvent * (World -> TransportReply * World) :=
  match proxy_symbol opts, proxy_string opts with
  | Some runner, _ | None, Some runner => (EvProxy p signal, runner p signal)
  | None, None =>
      (EvFetch (URL_toString (http_url h)) (fetch_init h body signal),
       fetch (URL_toString (http_url h)) (fetch_init h body signal))
  end.

(** The error that ends an attempt whose timer fires. *)
Definition timeout_error (reply : TransportReply) : JsError :=
  default (Error "Request timeout") (on_abort reply).

(** The result that [#parseResponse] builds around a payload. *)
Definition result_of (res : Response) (p : ApiProvider) (pl : Payload)
  : ProviderResponse :=
  {| payload := pl; provider := name p; responseStatus := status res;
     responseHeaders := collect_headers res |}.

(** What an attempt does once its transport call has settled with [v]. *)
Definition after_transport (v : JsError + Response) (p : ApiProvider)
  : @M World ReqEvent ProviderResponse :=
  let* res := settle v in parseResponse res p.


(** A provider whose attempt fails in every state of the world, with a
    value whose [message] can be read. *)
Definition always_fails (opts : RaceInit) (p : ApiProvider) : Prop :=
  forall w : World,
  exists e msg evs w',
    request opts p w = (Thrown e, evs, w') /\ read_message e = inr msg.

End Race.

(** ** Reading the logs *)

(** The calls of [#request] that a run made, in order, with how each
    ended. *)
Definition attempts (log : list RunEvent)
  : list (ApiProvider * Completion ProviderResponse) :=
  flat_map (fun ev => match ev with
                      | Attempted p _ c => [(p, c)]
                      | Warned _ => []
                      end) log.

Definition is_call (ev : ReqEvent) : bool :=
  match ev with
  | EvFetch _ _ | EvProxy _ _ => true
  | _ => false
  end.

Definition is_body_read (ev : ReqEvent) : bool :=
  match ev with
  | EvBody _ => true
  | _ => false
  end.

(** Is a transport call issued with an abort signal? *)
Definition call_signal (ev : ReqEvent) : bool :=
  match ev with
  | EvFetch _ init => init_signal init
  | EvProxy _ signal => signal
  | _ => false
  end.

(** The transport calls that a run issued. *)
Definition transport_calls (log : list RunEvent) : list ReqEvent :=
  flat_map (fun ev => match ev with
                      | Attempted _ evs _ => List.filter is_call evs
                      | Warned _ => []
                      end) log.

(** The value of the last entry of [entries] under [key]. *)
Fixpoint last_value {A : Type} (key : string) (entries : list (string * A)) : option A :=
  match entries with
  | [] => None
  | (k, v) :: rest =>
      match last_value key rest with
      | Some v' => Some v'
      | None => if String.eqb k key then Some v else None
      end
  end.

Definition calls (evs : list ReqEvent) : list ReqEvent :=
  List.filter is_call evs.

(** The response types that the [switch] of [#parseResponse] names. *)
Definition recognized (rt : string) : bool :=
  existsb (String.eqb rt)
    ["application/json"; "application/octet-stream";
     "application/x-www-form-urlencoded"; "text/plain";
     "x-application/protobuf"; "text/xml"].

(** The types on which [#parseResponse] throws before it touches the
    response. *)
Definition rejected_type (rt : string) : Prop :=
  rt = "application/octet-stream" \/ rt = "x-application/protobuf"
  \/ recognized rt = false.

(** The payload that a response gives under a response type: the body
    that the reader of that type resolves with, wrapped as the type asks. *)
Inductive payload_for (res : Response) : string -> Payload -> Prop :=
| payload_json v :
    json res = inr v -> payload_for res "application/json" (PayloadJson v)
| payload_text t :
    text res = inr t ->
    payload_for res "text/plain" (PayloadDict {[ "$text" := t ]})
| payload_xml x :
    text res = inr x ->
    payload_for res "text/xml" (PayloadDict {[ "$xml" := x ]})
| payload_form entries :
    formData res = inr entries ->
    payload_for res "application/x-www-form-urlencoded"
      (PayloadDict (assign_entries entry_toString entries ∅)).

(** ** The shape of a run *)

(** The attempts of a pass over the ordered providers [ps], and how the
    loop ends, when [retry] tells whether a failure moves on to the next
    provider. A failure whose [message] cannot be read ends the loop with
    the error of that reading. *)
Inductive Trace (retry : bool)
  : list ApiProvider -> list (ApiProvider * Completion ProviderResponse) ->
    Completion (option ProviderResponse) -> Prop :=
| Trace_exhausted :
    Trace retry [] [] (Returned None)
| Trace_success p rest r :
    Trace retry (p :: rest) [(p, Returned r)] (Returned (Some r))
| Trace_pending p rest :
    Trace retry (p :: rest) [(p, Pending)] Pending
| Trace_unreadable p rest e e' :
    read_message e = inl e' ->
    Trace retry (p :: rest) [(p, Thrown e)] (Thrown e')
| Trace_failure p rest e msg :
    retry = false ->
    read_message e = inr msg ->
    Trace retry (p :: rest) [(p, Thrown e)] (Thrown e)
| Trace_next p rest e msg att c :
    retry = true ->
    read_message e = inr msg ->
    Trace retry rest att c ->
    Trace retry (p :: rest) ((p, Thrown e) :: att) c.

(** How [run()] ends when its loop ends as [c]. *)
Definition run_completion (c : Completion (option ProviderResponse))
  : Completion ProviderResponse :=
  match c with
  | Returned (Some r) => Returned r
  | Returned None => Thrown (Error "No providers available")
  | Thrown e => Thrown e
  | Pending => Pending
  end.

Definition failed_attempt (pe : ApiProvider * JsError)
  : ApiProvider * Completion ProviderResponse :=
  (fst pe, Thrown (snd pe)).

(** A failed attempt whose rejection value has a [message] to read. *)
Definition readable_failure (a : ApiProvider * Completion ProviderResponse) : Prop :=
  exists e msg, snd a = Thrown e /\ read_message e = inr msg.

(** ** The ordering rule in the words of the specification *)

(** Insertion of [x] at index [i]. *)
Definition insert_at {A : Type} (i : nat) (x : A) (l : list A) : list A :=
  firstn i l ++ x :: skipn i l.

(** A provider with no priority is appended; a provider with priority [P],
    also [0], is inserted at index [P]. *)
Definition positional_step (results : list ApiProvider) (p : ApiProvider)
  : list ApiProvider :=
  match priority p with
  | None => results ++ [p]
  | Some P => insert_at (Z.to_nat P) p results
  end.

Definition positional_order (ps : list ApiProvider) : list ApiProvider :=
  fold_left positional_step ps [].

(** ** A mock host *)

(** A provider with the given name, priority and response type, on a mock
    endpoint. *)
Definition mock_provider (n : string) (prio : option Z) (rt : string) : ApiProvider :=
  {| _priority := prio; _method := "GET"; _url := "http://mock.test";
     _pathname := "/v1"; _search := None; _body := None; _headers := None;
     _name := n; _responseType := rt |}.

(** The double quote, as a string. *)
Definition dquote : string := String (Ascii.ascii_of_nat 34) EmptyString.

(** A response with status 200, the JSON body [{"a":1}] and the header
    [x-id: 7]. *)
Definition mock_response : Response :=
  {| status := 200;
     headers_entries := [("x-id", "7")];
     json := inr (JObj [("a", JNum 1)]);
     text := inr ("{" +:+ dquote +:+ "a" +:+ dquote +:+ ":1}");
     formData := inl (TypeError "Failed to parse body as FormData");
     body_time := 1;
     body_on_abort := None |}.

Definition abort_error : JsError :=
  ErrorObject "AbortError" "This operation was aborted".

(** A host whose [fetch] answers every call after 10 ms with
    [mock_response], rejects when aborted, and counts the calls in the
    world. *)
Definition mock_host : Host :=
  {| World := nat;
     URL := string;
     new_URL := fun path base =>
       if String.eqb base EmptyString then inl (TypeError "Invalid URL") else inr (base +:+ path);
     URL_set_search := fun u s => u +:+ "?" +:+ s;
     URL_toString := fun u => u;
     encodeURIComponent := fun s => s;
     isPlainObject := fun v => match v with JObj _ => true | _ => false end;
     jsonSafeStringify := fun _ => None;
     fetch := fun _ _ w =>
       ({| settlement := Settles 10 (inr mock_response);
           on_abort := Some abort_error |}, S w);
     setTimeout_delay := fun t =>
       if (1 <=? t) && (t <=? 2147483647) then t else 1;
     timer_wins_tie := false |}.

(** A transport for [mock_host] that answers by provider name: [bad*] is
    refused after 5 ms, [slow*] resolves with [mock_response] after 100 ms
    and ignores the signal, [hon*] does so too but rejects when aborted,
    and any other provider resolves with [mock_response] after 10 ms. *)
Definition mock_runner : @ProxyFn mock_host :=
  fun p _ w =>
    let reply :=
      if String.prefix "bad" (name p) then
        {| settlement := Settles 5 (inl (Error "connection refused"));
           on_abort := None |}
      else if String.prefix "slow" (name p) then
        {| settlement := Settles 100 (inr mock_response); on_abort := None |}
      else if String.prefix "hon" (name p) then
        {| settlement := Settles 100 (inr mock_response);
           on_abort := Some abort_error |}
      else
        {| settlement := Settles 10 (inr mock_response); on_abort := None |} in
    (reply, S w).

Definition mock_options (ps : list ApiProvider) (T : option Z) (retry : option bool)
  : @RaceInit mock_host :=
  {| providers := ProvidersArray (map ItemProvider ps);
     timeoutPerAttempt := T; maxAttempts := None; timeout := None;
     retryOnFail := retry; maxRetry := None;
     proxy_symbol := None; proxy_string := Some mock_runner |}.

Definition mock_race (ps : list ApiProvider) (T : option Z) (retry : option bool)
  : @ApiRace mock_host :=
  {| _providers := ps; _options := mock_options ps T retry |}.

(** ** Runs on the mock host *)

(** A provider without priority and a provider with priority 0. *)
Definition plain_provider : ApiProvider :=
  mock_provider "a" None "application/json".

Definition zero_provider : ApiProvider :=
  mock_provider "b" (Some 0) "application/json".

(** A JSON provider of the mock endpoint. *)
Definition json_provider (n : string) : ApiProvider :=
  mock_provider n None "application/json".

(** The result that the mock transport gives a JSON provider. *)
Definition json_result (n : string) : ProviderResponse :=
  {| payload := PayloadJson (JObj [("a", JNum 1)]);
     provider := n;
     responseStatus := 200;
     responseHeaders := {[ "x-id" := "7" ]} |}.

Definition refused : JsError := Error "connection refused".

(** A failing provider, then two that answer: the race falls through to
    the second and never calls the third. *)
Definition fallback_race : @ApiRace mock_host :=
  mock_race [json_provider "bad1"; json_provider "p1"; json_provider "p2"]
    None (Some true).

(** Two failing providers with [retryOnFail] on. *)
Definition failing_race : @ApiRace mock_host :=
  mock_race [json_provider "bad1"; json_provider "bad2"] None (Some true).

(** A failing provider before one that answers, with [retryOnFail] unset
    and with [retryOnFail] on. *)
Definition strict_race : @ApiRace mock_host :=
  mock_race [json_provider "bad1"; json_provider "p1"] None None.

Definition lenient_race : @ApiRace mock_host :=
  mock_race [json_provider "bad1"; json_provider "p1"] None (Some true).

(** A provider that answers after 100 ms, ignoring the signal, under a
    timeout of 50 ms and under a timeout of 500 ms. *)
Definition timeout_options (T : option Z) : @RaceInit mock_host :=
  mock_options [] T None.


(** A form response with a repeated field and a file. *)
Definition form_entries : list (string * FormDataEntryValue) :=
  [("a", FormString "1"); ("f", FormFile "x.bin"); ("a", FormString "2")].

Definition form_response : Response :=
  {| status := 201;
     headers_entries := [("content-type", "multipart/form-data")];
     json := inl (Error "Unexpected token");
     text := inr "raw";
     formData := inr form_entries;
     body_time := 1;
     body_on_abort := None |}.

(** The options of [fallback_race], with the three unused options set. *)
Definition budget_options : @RaceInit mock_host :=
  {| providers := providers (_options fallback_race);
     timeoutPerAttempt := None; maxAttempts := Some 1; timeout := Some 1;
     retryOnFail := Some true; maxRetry := Some 0;
     proxy_symbol := None; proxy_string := Some mock_runner |}.

Definition empty_array_options : @RaceInit mock_host := mock_options [] None None.

Definition empty_dict_options : @RaceInit mock_host :=
  {| providers := ProvidersDict [];
     timeoutPerAttempt := Some 50; maxAttempts := None; timeout := None;
     retryOnFail := Some true; maxRetry := None;
     proxy_symbol := Some mock_runner; proxy_string := None |}.

(** ** Locales and the locale of a module *)

(** The [Locales] enum and the string of each member. *)
Inductive Locales : Type := EN | ES | FR | IT | PT.

Definition locale_value (l : Locales) : string :=
  match l with
  | EN => "en"
  | ES => "es"
  | FR => "fr"
  | IT => "it"
  | PT => "pt"
  end.

(** [toLowerCase] on one character: the letters [A] to [Z] move to [a] to
    [z]. A string is its UTF-8 bytes; the bytes of the other characters
    are left alone, which gives the host's answer to the only question
    asked of the result here, whether it is one of the locale codes. *)
Definition ascii_toLowerCase (c : Ascii.ascii) : Ascii.ascii :=
  let n := Ascii.nat_of_ascii c in
  if ((65 <=? n) && (n <=? 90))%nat then Ascii.ascii_of_nat (n + 32) else c.

Fixpoint toLowerCase (s : string) : string :=
  match s with
  | EmptyString => EmptyString
  | String c rest => String (ascii_toLowerCase c) (toLowerCase rest)
  end.

(** [isLocale]: [locs.includes(locale.toLowerCase())]. *)
Definition isLocale (locale : string) : bool :=
  let locs := map (fun item => toLowerCase (locale_value item)) [EN; ES; FR; IT; PT] in
  existsb (String.eqb (toLowerCase locale)) locs.

(** The abstract class [Module], by its one field. *)
Record CoreModule : Type := { _locale : string }.

(** [new Module(props)]: [props] and its [locale] are both optional. *)
Definition new_Module (props : option (option string)) : CoreModule :=
  match props with
  | Some (Some l) =>
      if negb (String.eqb l EmptyString) && isLocale l
      then {| _locale := l |}
      else {| _locale := locale_value EN |}
  | _ => {| _locale := locale_value EN |}
  end.

(** The [locale] setter. *)
Definition set_locale (m : CoreModule) (l : string) : CoreModule :=
  if negb (isLocale l) then m else {| _locale := l |}.

(** The [locale] getter. *)
Definition locale (m : CoreModule) : string := _locale m.

(** ** More readings of the logs *)

(** Does [#orderProviders] push the provider? *)
Definition unprioritised (p : ApiProvider) : bool := falsy_number (priority p).

(** The warnings of a run, in order. *)
Definition warnings (log : list RunEvent) : list string :=
  flat_map (fun ev => match ev with
                      | Attempted _ _ _ => []
                      | Warned msg => [msg]
                      end) log.

(** The warnings that an attempt gives rise to. *)
Definition attempt_warnings (retry : bool)
    (a : ApiProvider * Completion ProviderResponse) : list string :=
  match snd a with
  | Thrown err =>
      match read_message err with
      | inr msg =>
          failed_msg (fst a) msg :: (if retry then [retrying_msg (fst a)] else [])
      | inl _ => []
      end
  | _ => []
  end.

Definition is_proxy_call (ev : ReqEvent) : bool :=
  match ev with
  | EvProxy _ _ => true
  | _ => false
  end.

Definition is_fetch_call (ev : ReqEvent) : bool :=
  match ev with
  | EvFetch _ _ => true
  | _ => false
  end.

Section MoreReadings.
Context {host : Host}.


(** Is a custom transport configured? *)
Definition has_proxy (opts : RaceInit) : bool :=
  match proxy_symbol opts, proxy_string opts with
  | None, None => false
  | _, _ => true
  end.

(** The options with another string-keyed [$proxy]. *)
Definition with_proxy_string (opts : RaceInit) (f : option ProxyFn) : RaceInit :=
  {| providers := providers opts;
     timeoutPerAttempt := timeoutPerAttempt opts;
     maxAttempts := maxAttempts opts; timeout := timeout opts;
     retryOnFail := retryOnFail opts; maxRetry := maxRetry opts;
     proxy_symbol := proxy_symbol opts; proxy_string := f |}.

(** The transport call of an attempt on [p]: none when the URL of [p]
    does not parse, else the one call of [getPromise]. *)
Definition attempt_calls (opts : RaceInit) (p : ApiProvider) : list ReqEvent :=
  match http p with
  | inl _ => []
  | inr h =>
      [fst (transport opts p h (request_body (http_body h))
              (negb (falsy_number (timeoutPerAttempt opts))))]
  end.

(** The race with another string-keyed [$proxy]. *)
Definition race_with_proxy_string (race : ApiRace) (f : option ProxyFn) : ApiRace :=
  {| _providers := _providers race;
     _options := with_proxy_string (_options race) f |}.

End MoreReadings.

(** ** More runs on the mock host *)

(** A transport that never settles and ignores the signal. *)
Definition silent_runner : @ProxyFn mock_host :=
  fun _ _ w => ({| settlement := Unsettled; on_abort := None |}, S w).

Definition silent_race : @ApiRace mock_host :=
  {| _providers := [json_provider "p1"; json_provider "p2"];
     _options :=
       {| providers := ProvidersArray
            [ItemProvider (json_provider "p1"); ItemProvider (json_provider "p2")];
          timeoutPerAttempt := None; maxAttempts := None; timeout := None;
          retryOnFail := Some true; maxRetry := None;
          proxy_symbol := Some silent_runner; proxy_string := Some mock_runner |} |}.

(** A response whose JSON body cannot be parsed. *)
Definition broken_json : JsError :=
  ErrorObject "SyntaxError" "Unexpected end of JSON input".

Definition broken_response : Response :=
  {| status := 200;
     headers_entries := [("x-id", "7")];
     json := inl broken_json;
     text := inr "{";
     formData := inl (TypeError "Failed to parse body as FormData");
     body_time := 1;
     body_on_abort := None |}.

(** A provider with a body, and one on a base that [new URL] refuses. *)
Definition body_provider (b : JsValue) : ApiProvider :=
  {| _priority := None; _method := "POST"; _url := "http://mock.test";
     _pathname := "/v1"; _search := None; _body := Some b; _headers := None;
     _name := "p1"; _responseType := "application/json" |}.


(** Three providers with priorities: none, 1 and 5. *)
Definition priority_race : @ApiRace mock_host :=
  mock_race [json_provider "bad1"; mock_provider "p1" (Some 1) "application/json";
             mock_provider "p2" (Some 5) "application/json"]
    None (Some true).

(** An array with an element that is not a provider. *)
Definition bad_array_options : @RaceInit mock_host :=
  {| providers := ProvidersArray [ItemProvider (json_provider "p1"); ItemOther JNull];
     timeoutPerAttempt := None; maxAttempts := None; timeout := None;
     retryOnFail := None; maxRetry := None;
     proxy_symbol := None; proxy_string := None |}.

(** What [http] gives a provider of the mock endpoint. *)
Definition mock_http (p : ApiProvider) : @HttpProps mock_host :=
  @Build_HttpProps mock_host (_method p) "http://mock.test/v1"
    (_pathname p) (_search p) (_body p) (_headers p).

(** The options of the mock host without any custom transport. *)
Definition fetch_options (T : option Z) (retry : option bool) : @RaceInit mock_host :=
  {| providers := ProvidersArray [];
     timeoutPerAttempt := T; maxAttempts := None; timeout := None;
     retryOnFail := retry; maxRetry := None;
     proxy_symbol := None; proxy_string := None |}.

(** A transport whose promise rejects with the value [e] after 5 ms. *)
Definition rejecting_runner (e : JsError) : @ProxyFn mock_host :=
  fun _ _ w => ({| settlement := Settles 5 (inl e); on_abort := None |}, S w).

(** Two providers behind a transport that rejects with [e]. *)
Definition rejecting_race (e : JsError) (retry : option bool) : @ApiRace mock_host :=
  {| _providers := [json_provider "p1"; json_provider "p2"];
     _options :=
       {| providers := ProvidersArray
            [ItemProvider (json_provider "p1"); ItemProvider (json_provider "p2")];
          timeoutPerAttempt := None; maxAttempts := None; timeout := None;
          retryOnFail := retry; maxRetry := None;
          proxy_symbol := None; proxy_string := Some (rejecting_runner e) |} |}.

(** The response of [mock_response] as the platform would stream it: its
    body takes 100 ms to read, and the read follows the signal. *)
Definition streamed_response : Response :=
  {| status := 200;
     headers_entries := [("x-id", "7")];
     json := inr (JObj [("a", JNum 1)]);
     text := inr ("{" +:+ dquote +:+ "a" +:+ dquote +:+ ":1}");
     formData := inl (TypeError "Failed to parse body as FormData");
     body_time := 100;
     body_on_abort := Some abort_error |}.

(** A transport that resolves with [streamed_response] after 10 ms. *)
Definition streaming_runner : @ProxyFn mock_host :=
  fun _ _ w =>
    ({| settlement := Settles 10 (inr streamed_response);
        on_abort := Some abort_error |}, S w).

Definition streaming_options (T : option Z) : @RaceInit mock_host :=
  {| providers := ProvidersArray [];
     timeoutPerAttempt := T; maxAttempts := None; timeout := None;
     retryOnFail := None; maxRetry := None;
     proxy_symbol := None; proxy_string := Some streaming_runner |}.






(** A form provider behind a transport that resolves with
    [form_response] after 10 ms, and the result of its attempt. *)
Definition form_provider : ApiProvider :=
  mock_provider "p2" None "application/x-www-form-urlencoded".

Definition form_runner : @ProxyFn mock_host :=
  fun _ _ w =>
    ({| settlement := Settles 10 (inr form_response); on_abort := None |}, S w).

Definition form_options : @RaceInit mock_host :=
  {| providers := ProvidersArray [];
     timeoutPerAttempt := None; maxAttempts := None; timeout := None;
     retryOnFail := None; maxRetry := None;
     proxy_symbol := None; proxy_string := Some form_runner |}.

Definition form_result : ProviderResponse :=
  {| payload := PayloadDict {[ "a" := "2"; "f" := "[object File]" ]};
     provider := "p2";
     responseStatus := 201;
     responseHeaders := {[ "content-type" := "multipart/form-data" ]} |}.

(** ** Properties of the ordering *)

Lemma firstn_to_nat_min {A : Type} (l : list A) (P : Z) :
  0 <= P ->
  firstn (Z.to_nat (Z.min P (Z.of_nat (length l)))) l = firstn (Z.to_nat P) l.
Proof.
  intros HP.
  destruct (Z.le_gt_cases P (Z.of_nat (length l))) as [Hle | Hgt].
  - now rewrite Z.min_l.
  - rewrite Z.min_r by lia. rewrite Nat2Z.id.
    rewrite firstn_all. symmetry. apply firstn_all2. lia.
Qed.

Lemma skipn_to_nat_min {A : Type} (l : list A) (P : Z) :
  0 <= P ->
  skipn (Z.to_nat (Z.min P (Z.of_nat (length l)))) l = skipn (Z.to_nat P) l.
Proof.
  intros HP.
  destruct (Z.le_gt_cases P (Z.of_nat (length l))) as [Hle | Hgt].
  - now rewrite Z.min_l.
  - rewrite Z.min_r by lia. rewrite Nat2Z.id.
    rewrite skipn_all. symmetry. apply skipn_all2. lia.
Qed.

(** For a start that is not negative, [splice] inserts at that index. *)
Lemma splice_insert_at {A : Type} (l : list A) (P : Z) (x : A) :
  0 <= P -> splice_insert l P x = insert_at (Z.to_nat P) x l.
Proof.
  intros HP. unfold splice_insert, insert_at.
  destruct (P <? 0) eqn:Hneg; [apply Z.ltb_lt in Hneg; lia |].
  now rewrite firstn_to_nat_min, skipn_to_nat_min.
Qed.

(** A provider without priority is appended. *)
Lemma order_step_no_priority (results : list ApiProvider) (p : ApiProvider) :
  priority p = None -> order_step results p = results ++ [p].
Proof. intros H. unfold order_step. now rewrite H. Qed.

(** A provider with a positive priority is inserted at that index. *)
Lemma order_step_positive (results : list ApiProvider) (p : ApiProvider) (P : Z) :
  priority p = Some P -> 0 < P ->
  order_step results p = insert_at (Z.to_nat P) p results.
Proof.
  intros H HP. unfold order_step. rewrite H. simpl.
  destruct (P =? 0) eqn:HP0; [apply Z.eqb_eq in HP0; lia |].
  apply splice_insert_at. lia.
Qed.

(** A provider with priority 0 is appended, as one without priority. *)
Lemma order_step_zero (results : list ApiProvider) (p : ApiProvider) :
  priority p = Some 0 -> order_step results p = results ++ [p].
Proof. intros H. unfold order_step. now rewrite H. Qed.

(** The rule of the specification puts a provider with priority 0 in
    front. *)
Lemma positional_step_zero (results : list ApiProvider) (p : ApiProvider) :
  priority p = Some 0 -> positional_step results p = p :: results.
Proof. intros H. unfold positional_step. now rewrite H. Qed.

(** The code and the rule of the specification agree on every provider
    whose priority is absent or positive. *)
Lemma order_step_positional (results : list ApiProvider) (p : ApiProvider) :
  (forall P, priority p = Some P -> 0 < P) ->
  order_step results p = positional_step results p.
Proof.
  intros HP. unfold positional_step.
  destruct (priority p) as [P |] eqn:Hp.
  - apply order_step_positive; auto.
  - now apply order_step_no_priority.
Qed.

Lemma fold_order_positional (ps acc : list ApiProvider) :
  Forall (fun p => forall P, priority p = Some P -> 0 < P) ps ->
  fold_left order_step ps acc = fold_left positional_step ps acc.
Proof.
  intros Hall. revert acc.
  induction Hall as [| p ps Hp _ IH]; intros acc; simpl; [reflexivity |].
  rewrite order_step_positional by exact Hp. apply IH.
Qed.

(** On a list without priority 0 (and without negative priorities) the
    computed order is the positional insertion of the specification. *)
Lemma orderProviders_positional (ps : list ApiProvider) :
  Forall (fun p => forall P, priority p = Some P -> 0 < P) ps ->
  orderProviders ps = positional_order ps.
Proof. apply fold_order_positional. Qed.

(** The order is computed provider by provider. *)
Lemma orderProviders_snoc (ps : list ApiProvider) (p : ApiProvider) :
  orderProviders (ps ++ [p]) = order_step (orderProviders ps) p.
Proof. unfold orderProviders. now rewrite fold_left_app. Qed.

(** Two providers on the same priority: the later one takes the index and
    shifts the earlier one to the right. A priority beyond the end is
    clamped to the end. *)
Example orderProviders_colliding_sparse :
  map name (orderProviders
    [mock_provider "a" None "text/plain"; mock_provider "b" (Some 1) "text/plain";
     mock_provider "c" (Some 1) "text/plain"; mock_provider "d" (Some 9) "text/plain";
     mock_provider "e" None "text/plain"])
  = ["a"; "c"; "b"; "d"; "e"].
Proof. reflexivity. Qed.

(** The mapping form writes the priority of each entry into its provider,
    0 as any other number; the provider of priority 0 then comes last. *)
Example orderProviders_of_mapping :
  match @constructor mock_host
          {| providers := ProvidersDict
               [("x", (mock_provider "c" None "text/plain", 2));
                ("y", (mock_provider "b" None "text/plain", 1));
                ("z", (mock_provider "a" None "text/plain", 0))];
             timeoutPerAttempt := None; maxAttempts := None; timeout := None;
             retryOnFail := None; maxRetry := None;
             proxy_symbol := None; proxy_string := None |} with
  | inr race =>
      map (fun p => (name p, priority p)) (orderProviders (_providers race))
      = [("c", Some 2); ("b", Some 1); ("a", Some 0)]
  | inl _ => False
  end.
Proof. reflexivity. Qed.

(** C1, on the code: a provider with priority 0 that comes after a
    provider without priority is appended behind it; positional insertion
    at index 0, as the claim states it, puts it in front. *)
Theorem C1_priority_zero_is_appended :
  orderProviders [plain_provider; zero_provider] = [plain_provider; zero_provider]
  /\ positional_order [plain_provider; zero_provider]
     = [zero_provider; plain_provider].
Proof. split; reflexivity. Qed.

(** ** Properties of [#parseResponse] *)

Ltac unfold_m :=
  unfold normalized, await_call, await_race, timer_fires, transport_wins,
    perform, bind, emit, ret, throw, hang, settle in *.

Lemma obj_assign_lookup {V : Type} (obj : gmap string V) (key k : string) (v : V) :
  k <> "__proto__" ->
  obj_assign obj key v !! k = if String.eqb key k then Some v else obj !! k.
Proof.
  intros Hk. unfold obj_assign.
  destruct (String.eqb key "__proto__") eqn:Hp.
  - apply String.eqb_eq in Hp. subst key.
    destruct (String.eqb "__proto__" k) eqn:E; [| reflexivity].
    apply String.eqb_eq in E. congruence.
  - destruct (String.eqb key k) eqn:E.
    + apply String.eqb_eq in E. subst. apply lookup_insert_eq.
    + apply String.eqb_neq in E. now apply lookup_insert_ne.
Qed.

(** After the assignment loop, a key other than [__proto__] holds the
    converted value of its last entry, or what the object held before. *)
Lemma assign_entries_lookup {A V : Type} (f : A -> V) (entries : list (string * A))
    (obj : gmap string V) (k : string) :
  k <> "__proto__" ->
  assign_entries f entries obj !! k =
    match last_value k entries with
    | Some v => Some (f v)
    | None => obj !! k
    end.
Proof.
  intros Hk. revert obj.
  induction entries as [| [key v] rest IH]; intros obj; simpl; [reflexivity |].
  unfold assign_entries in *. simpl. rewrite IH.
  destruct (last_value k rest); [reflexivity |].
  rewrite obj_assign_lookup by exact Hk.
  now destruct (String.eqb key k).
Qed.

(** The loop never binds the key [__proto__]. *)
Lemma assign_entries_proto {A V : Type} (f : A -> V) (entries : list (string * A))
    (obj : gmap string V) :
  assign_entries f entries obj !! "__proto__" = obj !! "__proto__".
Proof.
  revert obj. induction entries as [| [key v] rest IH]; intros obj; [reflexivity |].
  unfold assign_entries in *. simpl. rewrite IH.
  unfold obj_assign. destruct (String.eqb key "__proto__") eqn:E; [reflexivity |].
  apply String.eqb_neq in E. now apply lookup_insert_ne.
Qed.

Section ParseResponse.
Context {host : Host}.

Lemma parseResponse_octet (res : Response) (p : ApiProvider) (w : World) :
  responseType p = "application/octet-stream" ->
  parseResponse res p w = (Thrown (Error "Octet stream not supported yet"), [], w).
Proof. intros H. unfold parseResponse. rewrite H. reflexivity. Qed.

Lemma parseResponse_protobuf (res : Response) (p : ApiProvider) (w : World) :
  responseType p = "x-application/protobuf" ->
  parseResponse res p w = (Thrown (Error "Protobuf not supported yet"), [], w).
Proof. intros H. unfold parseResponse. rewrite H. reflexivity. Qed.

Lemma parseResponse_invalid (res : Response) (p : ApiProvider) (w : World) :
  recognized (responseType p) = false ->
  parseResponse res p w = (Thrown (Error "Invalid response type"), [], w).
Proof.
  unfold recognized, parseResponse. simpl. intros H.
  repeat (apply orb_false_elim in H; destruct H as [-> H]).
  reflexivity.
Qed.

Lemma parseResponse_rejected (res : Response) (p : ApiProvider) (w : World) :
  rejected_type (responseType p) ->
  exists e, parseResponse res p w = (Thrown e, [], w).
Proof.
  intros [H | [H | H]]; eexists.
  - now apply parseResponse_octet.
  - now apply parseResponse_protobuf.
  - now apply parseResponse_invalid.
Qed.

(** *** The transport call of an attempt *)

Lemma await_call_eq ev call (w : World) :
  await_call ev call w =
    let (reply, w1) := call w in
    (match settlement reply with
     | Settles _ v => completion_of v
     | Unsettled => Pending
     | Throws e => Thrown e
     end, [ev], w1).
Proof.
  unfold_m. destruct (call w) as [reply w1]. simpl.
  destruct (settlement reply) as [after [e | r] | | e]; reflexivity.
Qed.

Lemma await_race_eq ev call T (w : World) :
  await_race ev call T w =
    let (reply, w1) := call w in
    match settlement reply with
    | Settles after v =>
        if transport_first after T
        then (completion_of (race_value (setTimeout_delay T - after) v),
              [ev; EvSetTimeout T; EvTimerPending], w1)
        else (Thrown (timeout_error reply), [ev; EvSetTimeout T; EvAbort], w1)
    | Unsettled => (Thrown (timeout_error reply), [ev; EvSetTimeout T; EvAbort], w1)
    | Throws e => (Thrown e, [ev], w1)
    end.
Proof.
  unfold_m. unfold timeout_error. destruct (call w) as [reply w1]. simpl.
  destruct (settlement reply) as [after [e | r] | | e];
    [destruct (transport_first after T) .. | |];
    destruct (on_abort reply); reflexivity.
Qed.

Lemma getPromise_eq opts p h body :
  getPromise opts p h body =
    if falsy_number (timeoutPerAttempt opts)
    then await_call (fst (transport opts p h body false))
           (snd (transport opts p h body false))
    else await_race (fst (transport opts p h body true))
           (snd (transport opts p h body true))
           (default 0 (timeoutPerAttempt opts)).
Proof.
  unfold getPromise, getProxyPromise, transport.
  destruct (proxy_symbol opts), (proxy_string opts); reflexivity.
Qed.

Lemma transport_is_call opts p h body signal :
  is_call (fst (transport opts p h body signal)) = true
  /\ call_signal (fst (transport opts p h body signal)) = signal.
Proof.
  unfold transport.
  destruct (proxy_symbol opts), (proxy_string opts); split; reflexivity.
Qed.

(** The events of the transport part of an attempt: the call, then the
    timer when one is armed, then the abort when the timer fires, or the
    mark of the timer left armed when the transport settles first. *)
Lemma getPromise_events opts p h body (w : World) c evs w' :
  getPromise opts p h body w = (c, evs, w') ->
  let T := timeoutPerAttempt opts in
  let call := fst (transport opts p h body (negb (falsy_number T))) in
  (evs = [call] /\ (falsy_number T = true \/ exists e, c = Thrown e))
  \/ (falsy_number T = false
      /\ evs = [call; EvSetTimeout (default 0 T); EvTimerPending]
      /\ exists res, c = completion_of res)
  \/ (falsy_number T = false /\ evs = [call; EvSetTimeout (default 0 T); EvAbort]
      /\ exists e, c = Thrown e).
Proof.
  rewrite getPromise_eq. intros H. simpl.
  destruct (falsy_number (timeoutPerAttempt opts)) eqn:HT; simpl.
  - rewrite await_call_eq in H.
    destruct (snd (transport opts p h body false) w). inversion H. auto.
  - rewrite await_race_eq in H.
    destruct (snd (transport opts p h body true) w) as [reply w1].
    destruct (settlement reply) as [after v | | e];
      [destruct (transport_first after _) | |]; inversion H; subst; eauto 8.
Qed.

(** The transport part of an attempt reads no body. *)
Lemma getPromise_no_body_read opts p h body (w : World) c evs w' :
  getPromise opts p h body w = (c, evs, w') ->
  Forall (fun e => is_body_read e = false) evs.
Proof.
  intros H. apply getPromise_events in H. simpl in H.
  pose proof (transport_is_call opts p h body
                (negb (falsy_number (timeoutPerAttempt opts)))) as [Hc _].
  destruct (fst (transport opts p h body _)); try discriminate;
    destruct H as [[-> _] | [(_ & -> & _) | (_ & -> & _)]];
    repeat constructor.
Qed.

Lemma parseResponse_json res p (w : World) v :
  responseType p = "application/json" -> json res = inr v ->
  parseResponse res p w =
    (Returned (result_of res p (PayloadJson v)), [EvBody ReadJson; EvHeaders], w).
Proof.
  intros Ht Hv. unfold parseResponse. rewrite Ht. simpl.
  unfold_m. now rewrite Hv.
Qed.

Lemma parseResponse_text res p (w : World) t :
  responseType p = "text/plain" -> text res = inr t ->
  parseResponse res p w =
    (Returned (result_of res p (PayloadDict {[ "$text" := t ]})),
     [EvBody ReadText; EvHeaders], w).
Proof.
  intros Ht Hv. unfold parseResponse. rewrite Ht. simpl.
  unfold_m. now rewrite Hv.
Qed.

Lemma parseResponse_xml res p (w : World) x :
  responseType p = "text/xml" -> text res = inr x ->
  parseResponse res p w =
    (Returned (result_of res p (PayloadDict {[ "$xml" := x ]})),
     [EvBody ReadText; EvHeaders], w).
Proof.
  intros Ht Hv. unfold parseResponse. rewrite Ht. simpl.
  unfold_m. now rewrite Hv.
Qed.

Lemma parseResponse_form res p (w : World) entries :
  responseType p = "application/x-www-form-urlencoded" ->
  formData res = inr entries ->
  parseResponse res p w =
    (Returned (result_of res p
                 (PayloadDict (assign_entries entry_toString entries ∅))),
     [EvBody ReadFormData; EvHeaders], w).
Proof.
  intros Ht Hv. unfold parseResponse. rewrite Ht. simpl.
  unfold_m. now rewrite Hv.
Qed.

(** [#parseResponse] resolves exactly when the response has a payload for
    the declared type, with the result built around that payload; it
    leaves the world alone. *)
Lemma parseResponse_returned res p (w : World) r evs w' :
  parseResponse res p w = (Returned r, evs, w') ->
  exists pl, payload_for res (responseType p) pl /\ r = result_of res p pl
             /\ In EvHeaders evs /\ w' = w.
Proof.
  unfold parseResponse.
  repeat match goal with
         | |- context [String.eqb (responseType p) ?s] =>
             let E := fresh "E" in
             destruct (String.eqb (responseType p) s) eqn:E;
             [apply String.eqb_eq in E; rewrite E |]
         end;
    unfold_m; try discriminate.
  - destruct (json res) as [e | v] eqn:Hv; intros H; inversion H; subst.
    exists (PayloadJson v). repeat split; [now constructor | simpl; auto].
  - destruct (formData res) as [e | v] eqn:Hv; intros H; inversion H; subst.
    eexists. repeat split; [now constructor | simpl; auto].
  - destruct (text res) as [e | v] eqn:Hv; intros H; inversion H; subst.
    eexists. repeat split; [now apply payload_text | simpl; auto].
  - destruct (text res) as [e | v] eqn:Hv; intros H; inversion H; subst.
    eexists. repeat split; [now apply payload_xml | simpl; auto].
Qed.

Lemma parseResponse_world res p (w : World) c evs w' :
  parseResponse res p w = (c, evs, w') -> w' = w.
Proof.
  unfold parseResponse.
  repeat match goal with
         | |- context [String.eqb (responseType p) ?s] =>
             destruct (String.eqb (responseType p) s)
         end;
    unfold_m;
    try destruct (json res); try destruct (formData res); try destruct (text res);
    intros H; inversion H; reflexivity.
Qed.

(** *** [#request], step by step *)

Lemma request_eq opts p (w : World) :
  request opts p w =
    match http p with
    | inl e => (Thrown e, [], w)
    | inr h =>
        match getPromise opts p h (request_body (http_body h)) w with
        | (Returned res, evs, w1) =>
            let '(c, evs', w2) := parseResponse res p w1 in (c, evs ++ evs', w2)
        | (Thrown e, evs, w1) => (Thrown e, evs, w1)
        | (Pending, evs, w1) => (Pending, evs, w1)
        end
    end.
Proof.
  unfold request, bind, settle, throw, ret.
  destruct (http p) as [e | h]; [reflexivity |]. simpl.
  destruct (getPromise opts p h _ w) as [[[res | e |] evs] w1]; try reflexivity.
  destruct (parseResponse res p w1) as [[c evs'] w2]. reflexivity.
Qed.

(** A resolved attempt is a resolved transport call followed by a resolved
    [#parseResponse] of its response. *)
Lemma request_returned opts p (w : World) r evs w' :
  request opts p w = (Returned r, evs, w') ->
  exists h res evs0 evs1 w1,
    http p = inr h
    /\ getPromise opts p h (request_body (http_body h)) w = (Returned res, evs0, w1)
    /\ parseResponse res p w1 = (Returned r, evs1, w')
    /\ evs = evs0 ++ evs1.
Proof.
  rewrite request_eq. destruct (http p) as [e | h]; [discriminate |].
  destruct (getPromise opts p h _ w) as [[[res | e |] evs0] w1] eqn:Hg;
    try discriminate.
  destruct (parseResponse res p w1) as [[c evs1] w2] eqn:Hp.
  intros H. inversion H; subst. exists h, res, evs0, evs1, w1. auto.
Qed.

(** A timer left armed changes neither the status nor the headers of a
    response, and no body that is read under it is another than the body
    of the response. *)
Lemma read_under_timer_result remaining res p pl :
  result_of (read_under_timer remaining res) p pl = result_of res p pl.
Proof.
  unfold read_under_timer.
  destruct (body_on_abort res); [| reflexivity].
  now destruct (fires_while_reading remaining res).
Qed.

Lemma read_under_timer_payload remaining res rt pl :
  payload_for (read_under_timer remaining res) rt pl -> payload_for res rt pl.
Proof.
  unfold read_under_timer.
  destruct (body_on_abort res); [| auto].
  destruct (fires_while_reading remaining res); [| auto].
  intros H. inversion H; discriminate.
Qed.

(** A resolved race is a transport call whose promise resolves; the
    attempt reads its response, under the timer when one is armed. *)
Lemma getPromise_returned opts p h body (w : World) res evs w1 :
  getPromise opts p h body w = (Returned res, evs, w1) ->
  exists reply after res0,
    snd (transport opts p h body (negb (falsy_number (timeoutPerAttempt opts)))) w
    = (reply, w1)
    /\ settlement reply = Settles after (inr res0)
    /\ (res = res0 \/ exists remaining, res = read_under_timer remaining res0).
Proof.
  rewrite getPromise_eq.
  destruct (falsy_number (timeoutPerAttempt opts)); simpl.
  - rewrite await_call_eq.
    destruct (snd (transport opts p h body false) w) as [reply w0].
    destruct (settlement reply) as [after [e | res0] | | e] eqn:Hs;
      simpl; intros H; inversion H; subst.
    eexists _, _, _. split; [reflexivity |]. split; [exact Hs |].
    left. reflexivity.
  - rewrite await_race_eq.
    destruct (snd (transport opts p h body true) w) as [reply w0].
    destruct (settlement reply) as [after [e | res0] | | e] eqn:Hs;
      [destruct (transport_first after _) .. | |];
      simpl; intros H; inversion H; subst.
    eexists _, _, _. split; [reflexivity |]. split; [exact Hs |].
    right. eexists. reflexivity.
Qed.

(** A resolved attempt is a transport call whose promise resolves with a
    response that has a payload for the declared type; the result is
    built around that payload, after the header loop. *)
Lemma request_resolved opts p (w : World) r evs w' :
  request opts p w = (Returned r, evs, w') ->
  exists h reply after res pl,
    http p = inr h
    /\ snd (transport opts p h (request_body (http_body h))
              (negb (falsy_number (timeoutPerAttempt opts)))) w
       = (reply, w')
    /\ settlement reply = Settles after (inr res)
    /\ payload_for res (responseType p) pl
    /\ r = result_of res p pl
    /\ In EvHeaders evs.
Proof.
  intros H.
  apply request_returned in H as (h & res & evs0 & evs1 & w1 & Hh & Hg & Hp & ->).
  apply parseResponse_returned in Hp as (pl & Hpl & -> & Hev & ->).
  apply getPromise_returned in Hg as (reply & after & res0 & Hcall & Hs & Hres).
  exists h, reply, after, res0, pl.
  split; [exact Hh |]. split; [exact Hcall |]. split; [exact Hs |].
  destruct Hres as [-> | [remaining ->]].
  - repeat split; auto. apply in_or_app. now right.
  - split; [now apply read_under_timer_payload in Hpl |].
    split; [apply read_under_timer_result |]. apply in_or_app. now right.
Qed.


Lemma form_payload_lookup (entries : list (string * FormDataEntryValue)) (k : string) :
  k <> "__proto__" ->
  assign_entries entry_toString entries (∅ : gmap string string) !! k =
    entry_toString <$> last_value k entries.
Proof.
  intros Hk. rewrite assign_entries_lookup by exact Hk.
  now destruct (last_value k entries).
Qed.

End ParseResponse.

(** ** Properties of the attempt loop *)

Lemma in_attempts (log : list RunEvent) p evs c :
  In (Attempted p evs c) log -> In (p, c) (attempts log).
Proof.
  intros H. unfold attempts. apply in_flat_map.
  exists (Attempted p evs c). split; [exact H | now left].
Qed.

Lemma Trace_success_inv retry ps att c p r :
  Trace retry ps att c -> In (p, Returned r) att ->
  c = Returned (Some r)
  /\ exists failed post,
       ps = map fst failed ++ p :: post
       /\ att = map failed_attempt failed ++ [(p, Returned r)].
Proof.
  induction 1 as [| p0 rest r0 | p0 rest | p0 rest e e' He | p0 rest e msg Hr He
                  | p0 rest e msg att c Hr He Ht IH];
    simpl; intros Hin.
  - contradiction.
  - destruct Hin as [Heq | []]. inversion Heq; subst.
    split; [reflexivity |]. now exists [], rest.
  - destruct Hin as [Heq | []]. discriminate.
  - destruct Hin as [Heq | []]. discriminate.
  - destruct Hin as [Heq | []]. discriminate.
  - destruct Hin as [Heq | Hin]; [discriminate |].
    destruct (IH Hin) as (-> & failed & post & -> & ->).
    split; [reflexivity |]. now exists ((p0, e) :: failed), post.
Qed.

Lemma Trace_all_failed ps att c :
  Trace true ps att c -> Forall readable_failure att ->
  c = Returned None /\ map fst att = ps.
Proof.
  induction 1 as [| p0 rest r0 | p0 rest | p0 rest e e' He | p0 rest e msg Hr He
                  | p0 rest e msg att c Hr He Ht IH];
    intros Hall.
  - now split.
  - inversion Hall as [| ? ? (e & msg & He & _) _]. discriminate.
  - inversion Hall as [| ? ? (e & msg & He & _) _]. discriminate.
  - inversion Hall as [| ? ? (e0 & msg & He0 & Hmsg) _]. simpl in He0.
    inversion He0; subst. congruence.
  - discriminate.
  - inversion Hall as [| ? ? _ Hall']; subst.
    destruct (IH Hall') as [-> <-]. now split.
Qed.

(** A failure whose [message] cannot be read is the last attempt of a
    pass, which ends with the error of that reading. *)
Lemma Trace_unreadable_inv retry ps att c p e e' :
  Trace retry ps att c -> In (p, Thrown e) att -> read_message e = inl e' ->
  c = Thrown e' /\ last att = Some (p, Thrown e).
Proof.
  induction 1 as [| p0 rest r0 | p0 rest | p0 rest e0 e0' He | p0 rest e0 msg Hr He
                  | p0 rest e0 msg att c Hr He Ht IH];
    simpl; intros Hin Hmsg.
  - contradiction.
  - destruct Hin as [Heq | []]. discriminate.
  - destruct Hin as [Heq | []]. discriminate.
  - destruct Hin as [Heq | []]. inversion Heq; subst.
    split; [congruence | reflexivity].
  - destruct Hin as [Heq | []]. inversion Heq; subst. congruence.
  - destruct Hin as [Heq | Hin]; [inversion Heq; subst; congruence |].
    destruct (IH Hin Hmsg) as [-> Hlast]. split; [reflexivity |].
    destruct att as [| a att]; [discriminate |]. exact Hlast.
Qed.

Lemma Trace_no_retry ps att c p e msg :
  Trace false ps att c -> In (p, Thrown e) att -> read_message e = inr msg ->
  c = Thrown e /\ att = [(p, Thrown e)] /\ exists rest, ps = p :: rest.
Proof.
  induction 1 as [| p0 rest r0 | p0 rest | p0 rest e0 e0' He | p0 rest e0 m0 Hr He
                  | p0 rest e0 m0 att c Hr He Ht IH];
    simpl; intros Hin Hmsg.
  - contradiction.
  - destruct Hin as [Heq | []]. discriminate.
  - destruct Hin as [Heq | []]. discriminate.
  - destruct Hin as [Heq | []]. inversion Heq; subst. congruence.
  - destruct Hin as [Heq | []]. inversion Heq; subst. eauto.
  - discriminate.
Qed.

Lemma Trace_retry_next ps att c (i : nat) p e msg :
  Trace true ps att c -> att !! i = Some (p, Thrown e) ->
  read_message e = inr msg ->
  ps !! i = Some p
  /\ forall q, ps !! S i = Some q -> exists c', att !! S i = Some (q, c').
Proof.
  intros Ht. revert i.
  induction Ht as [| p0 rest r0 | p0 rest | p0 rest e0 e0' He | p0 rest e0 m0 Hr He
                   | p0 rest e0 m0 att c Hr He Ht IH];
    intros i Hi Hmsg.
  - destruct i; discriminate.
  - destruct i as [| [| i]]; discriminate.
  - destruct i as [| [| i]]; discriminate.
  - destruct i as [| [| i]]; try discriminate.
    simpl in Hi. inversion Hi; subst. congruence.
  - discriminate.
  - destruct i as [| i]; simpl in *.
    + inversion Hi; subst. split; [reflexivity |].
      intros q Hq. inversion Ht; subst; simpl in *; inversion Hq; subst; eauto.
    + apply IH; assumption.
Qed.

(** The attempts are made along the order, one provider after the other. *)
Lemma Trace_prefix retry ps att c :
  Trace retry ps att c -> exists post, ps = map fst att ++ post.
Proof.
  induction 1 as [| p0 rest r0 | p0 rest | p0 rest e e' He | p0 rest e msg Hr He
                  | p0 rest e msg att c Hr He Ht IH];
    simpl; eauto.
  destruct IH as [post ->]. eauto.
Qed.

Section RunLoop.
Context {host : Host}.

Lemma race_loop_cons opts p rest (w : World) :
  race_loop opts (p :: rest) w =
    let '(c, evs, w1) := request opts p w in
    match c with
    | Returned r => (Returned (Some r), [Attempted p evs c], w1)
    | Thrown err =>
        match read_message err with
        | inl e' => (Thrown e', [Attempted p evs c], w1)
        | inr msg =>
            if truthy_flag (retryOnFail opts)
            then let '(c', log, w2) := race_loop opts rest w1 in
                 (c', Attempted p evs c :: Warned (failed_msg p msg)
                        :: Warned (retrying_msg p) :: log, w2)
            else (Thrown err, [Attempted p evs c; Warned (failed_msg p msg)], w1)
        end
    | Pending => (Pending, [Attempted p evs c], w1)
    end.
Proof.
  simpl. destruct (request opts p w) as [[[r | err |] evs] w1];
    unfold_m; simpl; try reflexivity.
  destruct (read_message err) as [e' | msg]; simpl; [reflexivity |].
  destruct (truthy_flag (retryOnFail opts)); simpl; [| reflexivity].
  destruct (race_loop opts rest w1) as [[c' log] w2]. reflexivity.
Qed.

Lemma race_loop_trace opts ps (w : World) c log w' :
  race_loop opts ps w = (c, log, w') ->
  Trace (truthy_flag (retryOnFail opts)) ps (attempts log) c.
Proof.
  revert w c log w'. induction ps as [| p rest IH]; intros w c log w' H.
  - inversion H; subst. constructor.
  - rewrite race_loop_cons in H.
    destruct (request opts p w) as [[[r | err |] evs] w1].
    + inversion H; subst. constructor.
    + destruct (read_message err) as [e' | msg] eqn:Hmsg.
      { inversion H; subst. now apply Trace_unreadable. }
      destruct (truthy_flag (retryOnFail opts)) eqn:Hretry.
      * destruct (race_loop opts rest w1) as [[c' log'] w2] eqn:Hrest.
        inversion H; subst. simpl.
        apply Trace_next with (msg := msg); [reflexivity | exact Hmsg |].
        eapply IH. exact Hrest.
      * inversion H; subst. now apply Trace_failure with (msg := msg).
    + inversion H; subst. constructor.
Qed.

Lemma run_eq (race : ApiRace) (w : World) :
  run race w =
    let '(c, log, w') :=
      race_loop (_options race) (orderProviders (_providers race)) w in
    (run_completion c, log, w').
Proof.
  unfold run, bind, ret, throw.
  destruct (race_loop _ _ w) as [[[[r |] | e |] log] w']; simpl;
    rewrite ?app_nil_r; reflexivity.
Qed.

(** The attempts of a run follow [Trace] along the computed order. *)
Lemma run_trace (race : ApiRace) (w : World) c log w' :
  run race w = (c, log, w') ->
  exists c0,
    c = run_completion c0
    /\ Trace (truthy_flag (retryOnFail (_options race)))
         (orderProviders (_providers race)) (attempts log) c0.
Proof.
  rewrite run_eq.
  destruct (race_loop _ _ w) as [[c0 log0] w0] eqn:Hloop.
  intros H. inversion H; subst. exists c0. split; [reflexivity |].
  eapply race_loop_trace. exact Hloop.
Qed.

(** With [retryOnFail] on, a pass over providers that always fail goes
    through all of them and runs out. *)
Lemma race_loop_all_fail opts ps :
  truthy_flag (retryOnFail opts) = true ->
  Forall (always_fails opts) ps ->
  forall w : World,
  exists log w',
    race_loop opts ps w = (Returned None, log, w')
    /\ map fst (attempts log) = ps.
Proof.
  intros Hretry Hall. induction Hall as [| p rest Hp _ IH]; intros w.
  - exists [], w. now split.
  - rewrite race_loop_cons. destruct (Hp w) as (e & msg & evs & w1 & -> & ->).
    rewrite Hretry. destruct (IH w1) as (log & w2 & -> & Hmap).
    eexists _, w2. split; [reflexivity |]. simpl. now rewrite Hmap.
Qed.

(** With [retryOnFail] on, a pass resolves with the first provider whose
    attempt resolves, when those before it always fail. *)
Lemma race_loop_first_success opts pre p post :
  truthy_flag (retryOnFail opts) = true ->
  Forall (always_fails opts) pre ->
  (forall w : World, exists r evs w', request opts p w = (Returned r, evs, w')) ->
  forall w : World,
  exists r log w',
    race_loop opts (pre ++ p :: post) w = (Returned (Some r), log, w')
    /\ map fst (attempts log) = pre ++ [p].
Proof.
  intros Hretry Hall Hp. induction Hall as [| q rest Hq _ IH]; intros w; simpl app.
  - rewrite race_loop_cons. destruct (Hp w) as (r & evs & w1 & ->).
    exists r. eexists _, w1. now split.
  - rewrite race_loop_cons. destruct (Hq w) as (e & msg & evs & w1 & -> & ->).
    rewrite Hretry. destruct (IH w1) as (r & log & w2 & -> & Hmap).
    exists r. eexists _, w2. split; [reflexivity |]. simpl. now rewrite Hmap.
Qed.

(** [run()] rejects with "No providers available" when [retryOnFail] is
    on and every provider of the order always fails. *)
Lemma run_all_fail (race : ApiRace) :
  truthy_flag (retryOnFail (_options race)) = true ->
  Forall (always_fails (_options race)) (orderProviders (_providers race)) ->
  forall w : World,
  exists log w',
    run race w = (Thrown (Error "No providers available"), log, w')
    /\ map fst (attempts log) = orderProviders (_providers race).
Proof.
  intros Hretry Hall w. rewrite run_eq.
  destruct (race_loop_all_fail _ _ Hretry Hall w) as (log & w' & -> & Hmap).
  exists log, w'. now split.
Qed.

(** [run()] resolves when [retryOnFail] is on, a provider of the order
    always resolves and those before it always fail. *)
Lemma run_first_success (race : ApiRace) pre p post :
  orderProviders (_providers race) = pre ++ p :: post ->
  truthy_flag (retryOnFail (_options race)) = true ->
  Forall (always_fails (_options race)) pre ->
  (forall w : World,
      exists r evs w', request (_options race) p w = (Returned r, evs, w')) ->
  forall w : World,
  exists r log w',
    run race w = (Returned r, log, w')
    /\ map fst (attempts log) = pre ++ [p].
Proof.
  intros Horder Hretry Hall Hp w. rewrite run_eq, Horder.
  destruct (race_loop_first_success _ _ _ post Hretry Hall Hp w)
    as (r & log & w' & -> & Hmap).
  exists r, log, w'. now split.
Qed.

End RunLoop.

(** ** Transport calls per attempt *)

Section Calls.
Context {host : Host}.

(** [#parseResponse] reads the body at most once, then the headers. *)
Lemma parseResponse_events res p (w : World) c evs w' :
  parseResponse res p w = (c, evs, w') ->
  evs = [] \/ (exists reader, evs = [EvBody reader])
  \/ (exists reader, evs = [EvBody reader; EvHeaders]).
Proof.
  unfold parseResponse.
  repeat match goal with
         | |- context [String.eqb (responseType p) ?s] =>
             destruct (String.eqb (responseType p) s)
         end;
    unfold_m;
    try destruct (json res); try destruct (formData res); try destruct (text res);
    intros H; inversion H; eauto.
Qed.

(** An attempt issues at most one transport call. *)
Lemma request_calls opts p (w : World) c evs w' :
  request opts p w = (c, evs, w') -> (length (calls evs) <= 1)%nat.
Proof.
  rewrite request_eq. destruct (http p) as [e | h].
  { intros H. inversion H. simpl. lia. }
  destruct (getPromise opts p h _ w) as [[c0 evs0] w1] eqn:Hg.
  assert (length (calls evs0) <= 1)%nat as H0.
  { apply getPromise_events in Hg. simpl in Hg.
    destruct (transport_is_call opts p h (request_body (http_body h))
                (negb (falsy_number (timeoutPerAttempt opts)))) as [Hc _].
    unfold calls.
    destruct Hg as [[-> _] | [(_ & -> & _) | (_ & -> & _)]];
      simpl; rewrite Hc; simpl; lia. }
  destruct c0 as [res | e |]; try (intros H; inversion H; subst; exact H0).
  destruct (parseResponse res p w1) as [[c1 evs1] w2] eqn:Hp.
  intros H. inversion H; subst.
  unfold calls in *. rewrite List.filter_app, length_app.
  apply parseResponse_events in Hp.
  destruct Hp as [-> | [[reader ->] | [reader ->]]]; simpl; lia.
Qed.

(** A pass of the loop issues at most one transport call per attempt. *)
Lemma race_loop_calls opts ps (w : World) c log w' :
  race_loop opts ps w = (c, log, w') ->
  (length (transport_calls log) <= length (attempts log))%nat.
Proof.
  revert w c log w'. induction ps as [| p rest IH]; intros w c log w' H.
  - inversion H. simpl. lia.
  - rewrite race_loop_cons in H.
    destruct (request opts p w) as [[c0 evs] w1] eqn:Hreq.
    apply request_calls in Hreq. fold (calls evs) in *.
    assert (forall l, transport_calls (Attempted p evs c0 :: l)
                      = calls evs ++ transport_calls l) as Hcons by reflexivity.
    destruct c0 as [r | err |].
    + inversion H; subst. rewrite Hcons. simpl. rewrite length_app. simpl. lia.
    + destruct (read_message err) as [e' | msg].
      { inversion H; subst. rewrite Hcons. simpl. rewrite length_app. simpl. lia. }
      destruct (truthy_flag (retryOnFail opts)).
      * destruct (race_loop opts rest w1) as [[c' log'] w2] eqn:Hrest.
        apply IH in Hrest. inversion H; subst.
        rewrite Hcons. simpl. rewrite length_app.
        change (transport_calls (Warned (failed_msg p msg)
                  :: Warned (retrying_msg p) :: log'))
          with (transport_calls log').
        lia.
      * inversion H; subst. rewrite Hcons. simpl. rewrite length_app. simpl. lia.
    + inversion H; subst. rewrite Hcons. simpl. rewrite length_app. simpl. lia.
Qed.

Lemma run_calls (race : ApiRace) (w : World) c log w' :
  run race w = (c, log, w') ->
  (length (transport_calls log) <= length (attempts log))%nat.
Proof.
  rewrite run_eq.
  destruct (race_loop _ _ w) as [[c0 log0] w0] eqn:Hloop.
  intros H. inversion H; subst. eapply race_loop_calls. exact Hloop.
Qed.

End Calls.

(** ** The claims on response normalisation *)

Section NormalisationClaims.
Context {host : Host}.

(** C6: every resolved attempt carries the payload that the declared
    response type asks for, built from the response of its transport call:
    the parsed body for [application/json], [{ $text }] and [{ $xml }]
    around the raw text for [text/plain] and [text/xml], and for
    [application/x-www-form-urlencoded] an object of strings that maps
    each field name to its (last) entry: to the string itself when the
    entry is a string, to the string that [toString()] gives a file when
    it is a file, and that has no other field. Whenever the reader of
    the declared type resolves, [#parseResponse] resolves with that
    result. *)
Theorem C6_payload_matches_response_type (opts : RaceInit) (p : ApiProvider) :
  (forall (w : World) r evs w',
      request opts p w = (Returned r, evs, w') ->
      exists h reply after res pl,
        http p = inr h
        /\ snd (transport opts p h (request_body (http_body h))
                  (negb (falsy_number (timeoutPerAttempt opts)))) w
           = (reply, w')
        /\ settlement reply = Settles after (inr res)
        /\ payload_for res (responseType p) pl
        /\ r = result_of res p pl)
  /\ (forall res (w : World) pl,
        payload_for res (responseType p) pl ->
        exists evs, parseResponse res p w = (Returned (result_of res p pl), evs, w))
  /\ (responseType p = "application/x-www-form-urlencoded" ->
      forall (w : World) r evs w',
        request opts p w = (Returned r, evs, w') ->
        exists h reply after res entries d,
          http p = inr h
          /\ snd (transport opts p h (request_body (http_body h))
                    (negb (falsy_number (timeoutPerAttempt opts)))) w
             = (reply, w')
          /\ settlement reply = Settles after (inr res)
          /\ formData res = inr entries
          /\ payload r = PayloadDict d
          /\ (forall k s, k <> "__proto__" ->
                          last_value k entries = Some (FormString s) ->
                          d !! k = Some s)
          /\ (forall k f, k <> "__proto__" ->
                          last_value k entries = Some (FormFile f) ->
                          d !! k = Some "[object File]")
          /\ (forall k, k <> "__proto__" ->
                        last_value k entries = None -> d !! k = None)).
Proof.
  split; [| split].
  - intros w r evs w' H.
    apply request_resolved in H as (h & reply & after & res & pl & H).
    exists h, reply, after, res, pl. tauto.
  - intros res w pl Hpl. inversion Hpl as [v Hv Ht | t Hv Ht | x Hv Ht | es Hv Ht];
      symmetry in Ht; eexists.
    + now apply parseResponse_json.
    + now apply parseResponse_text.
    + now apply parseResponse_xml.
    + now apply parseResponse_form.
  - intros Hrt w r evs w' H.
    apply request_resolved in H
      as (h & reply & after & res & pl & Hh & Hcall & Hs & Hpl & -> & _).
    rewrite Hrt in Hpl. inversion Hpl as [| | | entries Hentries]; subst.
    exists h, reply, after, res, entries. eexists.
    split; [exact Hh |]. split; [exact Hcall |]. split; [exact Hs |].
    split; [exact Hentries |]. split; [reflexivity |].
    repeat split; intros k; intros; rewrite form_payload_lookup by assumption;
      match goal with Hl : last_value _ _ = _ |- _ => now rewrite Hl end.
Qed.

(** C7: under [application/octet-stream] and [x-application/protobuf]
    [#parseResponse] throws its "not supported" error, under a response
    type that the switch does not name it throws "Invalid response type",
    each time without any event on the response; and an attempt with
    such a type never resolves and never reads a body. *)
Theorem C7_rejected_types_fail_unread (opts : RaceInit) (p : ApiProvider) :
  (responseType p = "application/octet-stream" ->
   forall res (w : World),
     parseResponse res p w =
       (Thrown (Error "Octet stream not supported yet"), [], w))
  /\ (responseType p = "x-application/protobuf" ->
      forall res (w : World),
        parseResponse res p w =
          (Thrown (Error "Protobuf not supported yet"), [], w))
  /\ (recognized (responseType p) = false ->
      forall res (w : World),
        parseResponse res p w = (Thrown (Error "Invalid response type"), [], w))
  /\ (rejected_type (responseType p) ->
      forall (w : World) c evs w',
        request opts p w = (c, evs, w') ->
        (forall r, c <> Returned r)
        /\ Forall (fun e => is_body_read e = false) evs).
Proof.
  split; [| split; [| split]].
  - intros H res w. now apply parseResponse_octet.
  - intros H res w. now apply parseResponse_protobuf.
  - intros H res w. now apply parseResponse_invalid.
  - intros Hrt w c evs w' Hreq. rewrite request_eq in Hreq.
    destruct (http p) as [e | h].
    { inversion Hreq. split; [discriminate | constructor]. }
    destruct (getPromise opts p h _ w) as [[c0 evs0] w1] eqn:Hg.
    apply getPromise_no_body_read in Hg.
    destruct c0 as [res | e |];
      try (inversion Hreq; subst; split; [discriminate | exact Hg]).
    destruct (parseResponse_rejected res p w1 Hrt) as [e He].
    rewrite He in Hreq. inversion Hreq; subst.
    split; [discriminate | now rewrite app_nil_r].
Qed.




End NormalisationClaims.

(** ** The claims on the attempt loop *)

Section LoopClaims.
Context {host : Host}.

(** C2: when an attempt of a run resolves, [run()] resolves with that
    attempt's result; the providers before it in the computed order were
    attempted in order and each failed, so it is the first provider of the
    order whose attempt succeeds; and it is the last attempt of the run:
    no provider after it is attempted, and the run issues no more
    transport calls than it made attempts. *)
Theorem C2_first_success_wins (race : ApiRace) (w : World) c log w' p evs r :
  run race w = (c, log, w') ->
  In (Attempted p evs (Returned r)) log ->
  c = Returned r
  /\ exists failed post,
       orderProviders (_providers race) = map fst failed ++ p :: post
       /\ attempts log = map failed_attempt failed ++ [(p, Returned r)]
       /\ (length (transport_calls log) <= length failed + 1)%nat.
Proof.
  intros Hrun Hin.
  pose proof (run_calls _ _ _ _ _ Hrun) as Hcalls.
  apply run_trace in Hrun as (c0 & -> & Ht).
  apply in_attempts in Hin.
  destruct (Trace_success_inv _ _ _ _ _ _ Ht Hin) as (-> & failed & post & Ho & Ha).
  split; [reflexivity |]. exists failed, post. repeat split; auto.
  rewrite Ha, length_app, length_map in Hcalls. exact Hcalls.
Qed.

(** X19: with [retryOnFail] on, a run all of whose attempts fail with a
    value whose [message] can be read rejects with the error "No
    providers available", and its attempts are the providers of the
    computed order, each once and in order. *)
Theorem run_exhausted_when_all_fail (race : ApiRace) (w : World) c log w' :
  run race w = (c, log, w') ->
  truthy_flag (retryOnFail (_options race)) = true ->
  Forall readable_failure (attempts log) ->
  c = Thrown (Error "No providers available")
  /\ map fst (attempts log) = orderProviders (_providers race).
Proof.
  intros Hrun Hretry Hall.
  apply run_trace in Hrun as (c0 & -> & Ht). rewrite Hretry in Ht.
  destruct (Trace_all_failed _ _ _ Ht Hall) as [-> Hmap]. now split.
Qed.

(** X20: on a failed attempt whose rejection value has a [message] to
    read: with [retryOnFail] off or unset it is the only attempt of the
    run, it is made on the first provider of the computed order, and
    [run()] rejects with the very value of that attempt; with
    [retryOnFail] on, the attempt that follows it is made on the next
    provider of the order, whenever the order has one. *)
Theorem run_failure_policy (race : ApiRace) (w : World) c log w' :
  run race w = (c, log, w') ->
  (truthy_flag (retryOnFail (_options race)) = false ->
   forall p evs e msg,
     In (Attempted p evs (Thrown e)) log ->
     read_message e = inr msg ->
     c = Thrown e
     /\ attempts log = [(p, Thrown e)]
     /\ exists rest, orderProviders (_providers race) = p :: rest)
  /\ (truthy_flag (retryOnFail (_options race)) = true ->
      forall (i : nat) p e msg,
        attempts log !! i = Some (p, Thrown e) ->
        read_message e = inr msg ->
        orderProviders (_providers race) !! i = Some p
        /\ forall q,
             orderProviders (_providers race) !! S i = Some q ->
             exists c', attempts log !! S i = Some (q, c')).
Proof.
  intros Hrun. apply run_trace in Hrun as (c0 & -> & Ht). split.
  - intros Hretry p evs e msg Hin Hmsg. rewrite Hretry in Ht.
    apply in_attempts in Hin.
    destruct (Trace_no_retry _ _ _ _ _ _ Ht Hin Hmsg) as (-> & Ha & Hrest). auto.
  - intros Hretry i p e msg Hi Hmsg. rewrite Hretry in Ht.
    exact (Trace_retry_next _ _ _ _ _ _ _ Ht Hi Hmsg).
Qed.

(** A failed attempt whose rejection value is [undefined] or [null] is
    the last attempt of its run, whatever [retryOnFail] is, and [run()]
    rejects with the error of reading [message]. *)
Lemma run_unreadable_failure (race : ApiRace) (w : World) c log w' p evs e e' :
  run race w = (c, log, w') ->
  In (Attempted p evs (Thrown e)) log ->
  read_message e = inl e' ->
  c = Thrown e' /\ last (attempts log) = Some (p, Thrown e).
Proof.
  intros Hrun Hin Hmsg. apply run_trace in Hrun as (c0 & -> & Ht).
  apply in_attempts in Hin.
  destruct (Trace_unreadable_inv _ _ _ _ _ _ _ Ht Hin Hmsg) as [-> Hlast].
  now split.
Qed.

(** The options that the attempt loop reads. *)
Lemma request_options (opts opts' : RaceInit) (p : ApiProvider) :
  timeoutPerAttempt opts = timeoutPerAttempt opts' ->
  proxy_symbol opts = proxy_symbol opts' ->
  proxy_string opts = proxy_string opts' ->
  request opts p = request opts' p.
Proof.
  intros HT Hs Hp. unfold request, getPromise, getProxyPromise.
  now rewrite HT, Hs, Hp.
Qed.

Lemma race_loop_options (opts opts' : RaceInit) (ps : list ApiProvider) (w : World) :
  timeoutPerAttempt opts = timeoutPerAttempt opts' ->
  retryOnFail opts = retryOnFail opts' ->
  proxy_symbol opts = proxy_symbol opts' ->
  proxy_string opts = proxy_string opts' ->
  race_loop opts ps w = race_loop opts' ps w.
Proof.
  intros HT Hr Hs Hp. revert w.
  induction ps as [| p rest IH]; intros w; [reflexivity |].
  rewrite !race_loop_cons, (request_options opts opts') by assumption.
  destruct (request opts' p w) as [[[r | err |] evs] w1]; try reflexivity.
  destruct (read_message err); [reflexivity |]. now rewrite Hr, IH.
Qed.

(** C9: two configurations that agree on everything but [timeout],
    [maxAttempts] and [maxRetry] are both refused by the constructor with
    the same error, or both accepted, and then every [run()] ends the same
    way, with the same log and the same effect on the world. *)
Theorem C9_unused_options (props props' : RaceInit) :
  providers props = providers props' ->
  timeoutPerAttempt props = timeoutPerAttempt props' ->
  retryOnFail props = retryOnFail props' ->
  proxy_symbol props = proxy_symbol props' ->
  proxy_string props = proxy_string props' ->
  match constructor props, constructor props' with
  | inr race, inr race' => forall w : World, run race w = run race' w
  | inl e, inl e' => e = e'
  | _, _ => False
  end.
Proof.
  intros Hps HT Hr Hs Hp. unfold constructor. rewrite <- Hps.
  destruct (providers props) as [items | entries].
  - destruct (every_provider items) as [ps |]; [| reflexivity].
    intros w. rewrite !run_eq. simpl.
    now rewrite (race_loop_options props props').
  - intros w. rewrite !run_eq. simpl.
    now rewrite (race_loop_options props props').
Qed.

(** C10: a coordinator built on an empty array or an empty mapping is
    accepted by the constructor, and every [run()] on it rejects with the
    error "No providers available", with an empty log (no attempt, no
    transport call) and the world unchanged. *)
Theorem C10_empty_providers (props : RaceInit) :
  providers props = ProvidersArray [] \/ providers props = ProvidersDict [] ->
  exists race,
    constructor props = inr race
    /\ forall w : World,
         run race w = (Thrown (Error "No providers available"), [], w).
Proof.
  intros [H | H]; unfold constructor; rewrite H; simpl;
    eexists; (split; [reflexivity | intros w; reflexivity]).
Qed.

End LoopClaims.

(** ** The claim on the per-attempt timer *)

Section TimerClaims.
Context {host : Host}.

Lemma after_transport_events v p (w : World) c evs w' :
  after_transport v p w = (c, evs, w') ->
  Forall (fun ev => is_call ev = false /\ ev <> EvAbort /\ ev <> EvTimerPending
                    /\ forall d, ev <> EvSetTimeout d) evs.
Proof.
  unfold after_transport, bind, settle, throw, ret.
  destruct v as [e | res]; [intros H; inversion H; constructor |].
  destruct (parseResponse res p w) as [[c1 evs1] w2] eqn:Hp.
  intros H. inversion H; subst. simpl.
  apply parseResponse_events in Hp.
  destruct Hp as [-> | [[reader ->] | [reader ->]]];
    repeat constructor; discriminate.
Qed.

(** An attempt is its transport part followed by the rest. *)
Lemma request_split opts p (w : World) c evs w' :
  request opts p w = (c, evs, w') ->
  (exists e, http p = inl e /\ evs = [])
  \/ exists h c0 evs0 w1 evs1,
       http p = inr h
       /\ getPromise opts p h (request_body (http_body h)) w = (c0, evs0, w1)
       /\ evs = evs0 ++ evs1
       /\ Forall (fun ev => is_call ev = false /\ ev <> EvAbort
                            /\ ev <> EvTimerPending
                            /\ forall d, ev <> EvSetTimeout d) evs1.
Proof.
  rewrite request_eq. destruct (http p) as [e | h].
  { intros H. inversion H. left. eauto. }
  destruct (getPromise opts p h _ w) as [[c0 evs0] w1] eqn:Hg.
  intros H. right. exists h, c0, evs0, w1.
  destruct c0 as [res | e |].
  - destruct (parseResponse res p w1) as [[c1 evs1] w2] eqn:Hp.
    inversion H; subst. exists evs1. repeat split; auto.
    apply (after_transport_events (inr res) p w1 c evs1 w').
    unfold after_transport, bind, settle, ret. now rewrite Hp.
  - inversion H; subst. exists []. rewrite app_nil_r. repeat split; auto.
  - inversion H; subst. exists []. rewrite app_nil_r. repeat split; auto.
Qed.




(** A response that does not follow the signal is read as it is. *)
Lemma read_under_timer_deaf (remaining : Z) (res : Response) :
  body_on_abort res = None -> read_under_timer remaining res = res.
Proof. intros H. unfold read_under_timer. now rewrite H. Qed.


End TimerClaims.

(** ** The claims on the mock host *)

Lemma triple_eta {A B C : Type} (x : A * B * C) :
  x = (fst (fst x), snd (fst x), snd x).
Proof. now destruct x as [[a b] c]. Qed.

(** The spec's example: status 200, body [{"a":1}], header [x-id: 7]. *)
Example parseResponse_mock_json :
  @parseResponse mock_host mock_response (json_provider "p1") 0%nat
  = (Returned (json_result "p1"), [EvBody ReadJson; EvHeaders], 0%nat).
Proof. vm_compute. reflexivity. Qed.

Example fallback_race_run :
  run fallback_race 0%nat
  = (Returned (json_result "p1"),
     [Attempted (json_provider "bad1") [EvProxy (json_provider "bad1") false]
        (Thrown refused);
      Warned "[ApiRace] bad1 failed with error: connection refused";
      Warned "[ApiRace] bad1 retrying...";
      Attempted (json_provider "p1")
        [EvProxy (json_provider "p1") false; EvBody ReadJson; EvHeaders]
        (Returned (json_result "p1"))],
     2%nat).
Proof. vm_compute. reflexivity. Qed.

(** C2 on [fallback_race]: the second provider wins after the first failed. *)
Lemma C2_witness :
  fst (fst (run fallback_race 0%nat)) = Returned (json_result "p1")
  /\ exists failed post,
       orderProviders (_providers fallback_race)
       = map fst failed ++ json_provider "p1" :: post
       /\ attempts (snd (fst (run fallback_race 0%nat)))
          = map failed_attempt failed
            ++ [(json_provider "p1", Returned (json_result "p1"))]
       /\ (length (transport_calls (snd (fst (run fallback_race 0%nat))))
           <= length failed + 1)%nat.
Proof.
  apply (C2_first_success_wins fallback_race 0%nat _ _
           (snd (run fallback_race 0%nat)) (json_provider "p1")
           [EvProxy (json_provider "p1") false; EvBody ReadJson; EvHeaders]
           (json_result "p1")).
  - apply triple_eta.
  - vm_compute. do 3 right. left. reflexivity.
Defined.

(** X19 on [failing_race]: both providers are tried, then the run gives
    up. *)
Lemma run_exhausted_when_all_fail_witness :
  fst (fst (run failing_race 0%nat)) = Thrown (Error "No providers available")
  /\ map fst (attempts (snd (fst (run failing_race 0%nat))))
     = orderProviders (_providers failing_race).
Proof.
  apply (run_exhausted_when_all_fail failing_race 0%nat _ _
           (snd (run failing_race 0%nat))).
  - apply triple_eta.
  - reflexivity.
  - vm_compute. repeat constructor; eexists _, _; split; reflexivity.
Defined.

(** X20 on [strict_race], where the failure of the first provider ends
    the run with its error, and on [lenient_race], where the second
    provider is attempted. *)
Lemma run_failure_policy_witness :
  (fst (fst (run strict_race 0%nat)) = Thrown refused
   /\ attempts (snd (fst (run strict_race 0%nat)))
      = [(json_provider "bad1", Thrown refused)]
   /\ exists rest,
        orderProviders (_providers strict_race) = json_provider "bad1" :: rest)
  /\ (orderProviders (_providers lenient_race) !! 0%nat
      = Some (json_provider "bad1")
      /\ forall q,
           orderProviders (_providers lenient_race) !! 1%nat = Some q ->
           exists c', attempts (snd (fst (run lenient_race 0%nat))) !! 1%nat
                      = Some (q, c')).
Proof.
  split.
  - refine (proj1 (run_failure_policy strict_race 0%nat _ _
                     (snd (run strict_race 0%nat)) (triple_eta _))
              eq_refl (json_provider "bad1")
              [EvProxy (json_provider "bad1") false] refused
              "connection refused" _ eq_refl).
    vm_compute. auto.
  - refine (proj2 (run_failure_policy lenient_race 0%nat _ _
                     (snd (run lenient_race 0%nat)) (triple_eta _))
              eq_refl 0%nat (json_provider "bad1") refused
              "connection refused" _ eq_refl).
    vm_compute. reflexivity.
Defined.

(** C3, on the code: with [retryOnFail] on and a transport whose promise
    rejects with [undefined], the attempt of every provider fails, yet
    [run()] rejects after the first attempt with the [TypeError] that
    reading [err.message] throws in the [catch] block: not with "No
    providers available", and the second provider of the order is never
    attempted. *)
Theorem C3_undefined_rejection_ends_race :
  truthy_flag (retryOnFail (_options (rejecting_race Undefined (Some true)))) = true
  /\ orderProviders (_providers (rejecting_race Undefined (Some true)))
     = [json_provider "p1"; json_provider "p2"]
  /\ (forall p w,
        In p [json_provider "p1"; json_provider "p2"] ->
        request (_options (rejecting_race Undefined (Some true))) p w
        = (Thrown Undefined, [EvProxy p false], S w))
  /\ run (rejecting_race Undefined (Some true)) 0%nat
     = (Thrown (TypeError "Cannot read properties of undefined (reading 'message')"),
        [Attempted (json_provider "p1") [EvProxy (json_provider "p1") false]
           (Thrown Undefined)],
        1%nat)
  /\ fst (fst (run (rejecting_race Undefined (Some true)) 0%nat))
     <> Thrown (Error "No providers available")
  /\ map fst (attempts (snd (fst (run (rejecting_race Undefined (Some true)) 0%nat))))
     <> orderProviders (_providers (rejecting_race Undefined (Some true))).
Proof.
  split; [reflexivity |]. split; [reflexivity |]. split.
  { intros p w [<- | [<- | []]]; reflexivity. }
  split; [vm_compute; reflexivity |]. split; vm_compute; discriminate.
Qed.

(** C4, on the code: with [retryOnFail] unset and a transport whose
    promise rejects with [null], [run()] does not reject with the value
    of the failed attempt but with the [TypeError] that reading
    [err.message] throws in the [catch] block, and no warning is written;
    with [retryOnFail] on, the same failure ends the run and the next
    provider of the order is not attempted. *)
Theorem C4_null_rejection_is_replaced :
  run (rejecting_race Null None) 0%nat
  = (Thrown (TypeError "Cannot read properties of null (reading 'message')"),
     [Attempted (json_provider "p1") [EvProxy (json_provider "p1") false]
        (Thrown Null)],
     1%nat)
  /\ fst (fst (run (rejecting_race Null None) 0%nat)) <> Thrown Null
  /\ orderProviders (_providers (rejecting_race Null (Some true))) !! 1%nat
     = Some (json_provider "p2")
  /\ attempts (snd (fst (run (rejecting_race Null (Some true)) 0%nat)))
     = [(json_provider "p1", Thrown Null)].
Proof.
  split; [vm_compute; reflexivity |]. split; [vm_compute; discriminate |].
  split; vm_compute; reflexivity.
Qed.

Example request_times_out :
  request (timeout_options (Some 50)) (json_provider "slow1") 0%nat
  = (Thrown (Error "Request timeout"),
     [EvProxy (json_provider "slow1") true; EvSetTimeout 50; EvAbort], 1%nat).
Proof. vm_compute. reflexivity. Qed.

Example request_beats_timer :
  request (timeout_options (Some 500)) (json_provider "slow1") 0%nat
  = (Returned (json_result "slow1"),
     [EvProxy (json_provider "slow1") true; EvSetTimeout 500; EvTimerPending;
      EvBody ReadJson; EvHeaders], 1%nat).
Proof. vm_compute. reflexivity. Qed.

(** A timeout cancels one attempt only: with [retryOnFail] on, the race
    goes on with the next provider. *)
Example run_after_timeout :
  run (mock_race [json_provider "slow1"; json_provider "p1"] (Some 50) (Some true))
    0%nat
  = (Returned (json_result "p1"),
     [Attempted (json_provider "slow1")
        [EvProxy (json_provider "slow1") true; EvSetTimeout 50; EvAbort]
        (Thrown (Error "Request timeout"));
      Warned "[ApiRace] slow1 failed with error: Request timeout";
      Warned "[ApiRace] slow1 retrying...";
      Attempted (json_provider "p1")
        [EvProxy (json_provider "p1") true; EvSetTimeout 50; EvTimerPending;
         EvBody ReadJson; EvHeaders]
        (Returned (json_result "p1"))],
     2%nat).
Proof. vm_compute. reflexivity. Qed.

(** A transport whose promise rejects when its signal is aborted settles
    the race inside [abort()], before the timer's own [reject] runs. *)
Example request_aborted_transport :
  request (timeout_options (Some 50)) (json_provider "hon1") 0%nat
  = (Thrown abort_error,
     [EvProxy (json_provider "hon1") true; EvSetTimeout 50; EvAbort], 1%nat).
Proof. vm_compute. reflexivity. Qed.

(** The timer is never cleared: on a response that takes 100 ms to read
    and follows the signal, handed out after 10 ms under a timeout of
    50 ms, the race is won by the transport and the body read is
    aborted; under a timeout of 500 ms the read is over in time. *)
Example request_aborted_body_read :
  request (streaming_options (Some 50)) (json_provider "p1") 0%nat
  = (Thrown abort_error,
     [EvProxy (json_provider "p1") true; EvSetTimeout 50; EvTimerPending;
      EvBody ReadJson], 1%nat)
  /\ request (streaming_options (Some 500)) (json_provider "p1") 0%nat
     = (Returned (json_result "p1"),
        [EvProxy (json_provider "p1") true; EvSetTimeout 500; EvTimerPending;
         EvBody ReadJson; EvHeaders], 1%nat).
Proof. split; vm_compute; reflexivity. Qed.



Example parseResponse_mock_form :
  @parseResponse mock_host form_response
    (mock_provider "p2" None "application/x-www-form-urlencoded") 0%nat
  = (Returned
       {| payload := PayloadDict {[ "a" := "2"; "f" := "[object File]" ]};
          provider := "p2"; responseStatus := 201;
          responseHeaders := {[ "content-type" := "multipart/form-data" ]} |},
     [EvBody ReadFormData; EvHeaders], 0%nat).
Proof. vm_compute. reflexivity. Qed.

Example parseResponse_mock_text :
  @parseResponse mock_host form_response (mock_provider "p3" None "text/plain") 0%nat
  = (Returned
       {| payload := PayloadDict {[ "$text" := "raw" ]};
          provider := "p3"; responseStatus := 201;
          responseHeaders := {[ "content-type" := "multipart/form-data" ]} |},
     [EvBody ReadText; EvHeaders], 0%nat).
Proof. vm_compute. reflexivity. Qed.

Example parseResponse_mock_xml :
  @parseResponse mock_host form_response (mock_provider "p4" None "text/xml") 0%nat
  = (Returned
       {| payload := PayloadDict {[ "$xml" := "raw" ]};
          provider := "p4"; responseStatus := 201;
          responseHeaders := {[ "content-type" := "multipart/form-data" ]} |},
     [EvBody ReadText; EvHeaders], 0%nat).
Proof. vm_compute. reflexivity. Qed.

Example request_mock_form :
  request form_options form_provider 0%nat
  = (Returned form_result,
     [EvProxy form_provider false; EvBody ReadFormData; EvHeaders], 1%nat).
Proof. vm_compute. reflexivity. Qed.

(** C6 on the mock transport, on [mock_response] and on the form response
    of [form_runner], whose field [a] is repeated and whose field [f] is a
    file. *)
Lemma C6_witness :
  (exists (h : @HttpProps mock_host) reply after res pl,
      http (json_provider "p1") = inr h
      /\ snd (transport (timeout_options None) (json_provider "p1") h
                (@request_body mock_host (http_body h))
                (negb (falsy_number (timeoutPerAttempt (timeout_options None)))))
           0%nat
         = (reply, 1%nat)
      /\ settlement reply = Settles after (inr res)
      /\ payload_for res "application/json" pl
      /\ json_result "p1" = result_of res (json_provider "p1") pl)
  /\ (exists evs,
        @parseResponse mock_host mock_response (json_provider "p1") 0%nat
        = (Returned (result_of mock_response (json_provider "p1")
                       (PayloadJson (JObj [("a", JNum 1)]))), evs, 0%nat))
  /\ (exists (h : @HttpProps mock_host) reply after res entries d,
        http form_provider = inr h
        /\ snd (transport form_options form_provider h
                  (@request_body mock_host (http_body h))
                  (negb (falsy_number (timeoutPerAttempt form_options))))
             0%nat
           = (reply, 1%nat)
        /\ settlement reply = Settles after (inr res)
        /\ formData res = inr entries
        /\ payload form_result = PayloadDict d
        /\ (forall k s, k <> "__proto__" ->
                        last_value k entries = Some (FormString s) ->
                        d !! k = Some s)
        /\ (forall k f, k <> "__proto__" ->
                        last_value k entries = Some (FormFile f) ->
                        d !! k = Some "[object File]")
        /\ (forall k, k <> "__proto__" ->
                      last_value k entries = None -> d !! k = None)).
Proof.
  split; [| split].
  - apply (proj1 (C6_payload_matches_response_type (timeout_options None)
                    (json_provider "p1"))
             0%nat (json_result "p1")
             [EvProxy (json_provider "p1") false; EvBody ReadJson; EvHeaders]
             1%nat).
    vm_compute. reflexivity.
  - apply (proj1 (proj2 (C6_payload_matches_response_type (timeout_options None)
                           (json_provider "p1")))
             mock_response 0%nat (PayloadJson (JObj [("a", JNum 1)]))).
    now apply payload_json.
  - apply (proj2 (proj2 (C6_payload_matches_response_type form_options
                           form_provider))
             eq_refl 0%nat form_result
             [EvProxy form_provider false; EvBody ReadFormData; EvHeaders] 1%nat).
    vm_compute. reflexivity.
Defined.

(** C7 on the two unsupported types and on [image/png]. *)
Lemma C7_witness :
  @parseResponse mock_host mock_response
    (mock_provider "p1" None "application/octet-stream") 0%nat
  = (Thrown (Error "Octet stream not supported yet"), [], 0%nat)
  /\ @parseResponse mock_host mock_response
       (mock_provider "p1" None "x-application/protobuf") 0%nat
     = (Thrown (Error "Protobuf not supported yet"), [], 0%nat)
  /\ @parseResponse mock_host mock_response
       (mock_provider "p1" None "image/png") 0%nat
     = (Thrown (Error "Invalid response type"), [], 0%nat)
  /\ ((forall r,
          fst (fst (request (timeout_options None)
                      (mock_provider "p1" None "image/png") 0%nat))
          <> Returned r)
      /\ Forall (fun e => is_body_read e = false)
           (snd (fst (request (timeout_options None)
                        (mock_provider "p1" None "image/png") 0%nat)))).
Proof.
  split; [| split; [| split]].
  - exact (proj1 (C7_rejected_types_fail_unread (timeout_options None)
                    (mock_provider "p1" None "application/octet-stream"))
             eq_refl mock_response 0%nat).
  - exact (proj1 (proj2 (C7_rejected_types_fail_unread (timeout_options None)
                           (mock_provider "p1" None "x-application/protobuf")))
             eq_refl mock_response 0%nat).
  - exact (proj1 (proj2 (proj2 (C7_rejected_types_fail_unread
                                  (timeout_options None)
                                  (mock_provider "p1" None "image/png"))))
             eq_refl mock_response 0%nat).
  - refine (proj2 (proj2 (proj2 (C7_rejected_types_fail_unread
                                   (timeout_options None)
                                   (mock_provider "p1" None "image/png"))))
              _ 0%nat _ _ _ (triple_eta _)).
    right. right. reflexivity.
Defined.



(** C9 on [fallback_race] and [budget_options]. *)
Lemma C9_witness :
  match constructor (_options fallback_race), constructor budget_options with
  | inr race, inr race' => forall w : nat, run race w = run race' w
  | inl e, inl e' => e = e'
  | _, _ => False
  end.
Proof.
  apply (C9_unused_options (_options fallback_race) budget_options);
    reflexivity.
Defined.

(** C10 on an empty array and on an empty mapping. *)
Lemma C10_witness :
  (exists race,
      constructor empty_array_options = inr race
      /\ forall w : nat,
           run race w = (Thrown (Error "No providers available"), [], w))
  /\ (exists race,
        constructor empty_dict_options = inr race
        /\ forall w : nat,
             run race w = (Thrown (Error "No providers available"), [], w)).
Proof.
  split.
  - apply (C10_empty_providers empty_array_options). left. reflexivity.
  - apply (C10_empty_providers empty_dict_options). right. reflexivity.
Defined.

(** ** Further properties of the ordering *)

Lemma splice_insert_split {A : Type} (l : list A) (start : Z) (x : A) :
  exists n : nat, splice_insert l start x = take n l ++ x :: drop n l.
Proof. unfold splice_insert. eauto. Qed.

Lemma order_step_split (results : list ApiProvider) (p : ApiProvider) :
  exists n : nat, order_step results p = take n results ++ p :: drop n results.
Proof.
  unfold order_step. destruct (falsy_number (priority p)).
  - exists (length results). now rewrite firstn_all, skipn_all.
  - apply splice_insert_split.
Qed.

Lemma order_step_perm (results : list ApiProvider) (p : ApiProvider) :
  order_step results p ≡ₚ p :: results.
Proof.
  destruct (order_step_split results p) as [n ->].
  rewrite <- Permutation_middle. now rewrite take_drop.
Qed.

Lemma fold_order_step_perm (ps acc : list ApiProvider) :
  fold_left order_step ps acc ≡ₚ acc ++ ps.
Proof.
  revert acc. induction ps as [| p ps IH]; intros acc; simpl.
  - now rewrite app_nil_r.
  - rewrite IH, order_step_perm. simpl. apply Permutation_middle.
Qed.

(** X1: whatever the priorities are (absent, zero, colliding, beyond the
    end, negative), the computed order holds exactly the stored providers:
    none is dropped and none is doubled. *)
Theorem orderProviders_permutation (ps : list ApiProvider) :
  orderProviders ps ≡ₚ ps /\ length (orderProviders ps) = length ps.
Proof.
  assert (orderProviders ps ≡ₚ ps) as H by apply (fold_order_step_perm ps []).
  split; [exact H | now rewrite H].
Qed.

Lemma order_step_head (results : list ApiProvider) (p p0 : ApiProvider) :
  (forall P, priority p = Some P -> P = 0 \/ 1 <= P) ->
  head results = Some p0 -> head (order_step results p) = Some p0.
Proof.
  intros Hp Hhead. destruct results as [| r results]; [discriminate |].
  simpl in Hhead. inversion Hhead; subst r.
  unfold order_step. destruct (priority p) as [P |] eqn:HP; simpl; [| reflexivity].
  destruct (P =? 0) eqn:H0; [reflexivity |].
  apply Z.eqb_neq in H0. specialize (Hp P eq_refl).
  unfold splice_insert. destruct (P <? 0) eqn:Hneg; [apply Z.ltb_lt in Hneg; lia |].
  destruct (Z.to_nat (Z.min P (Z.of_nat (length (p0 :: results))))) as [| n] eqn:Hn.
  - simpl length in Hn. lia.
  - reflexivity.
Qed.

Lemma fold_order_step_head (ps acc : list ApiProvider) (p0 : ApiProvider) :
  Forall (fun p => forall P, priority p = Some P -> P = 0 \/ 1 <= P) ps ->
  head acc = Some p0 -> head (fold_left order_step ps acc) = Some p0.
Proof.
  intros Hall. revert acc. induction Hall as [| p ps Hp _ IH]; intros acc Hacc.
  - exact Hacc.
  - simpl. apply IH. now apply order_step_head.
Qed.

(** When every later provider has no priority, priority 0 or a priority
    of at least 1, the provider that is stored first is first in the
    computed order. *)
Lemma orderProviders_first_stays_first (p0 : ApiProvider) (rest : list ApiProvider) :
  Forall (fun p => forall P, priority p = Some P -> P = 0 \/ 1 <= P) rest ->
  head (orderProviders (p0 :: rest)) = Some p0.
Proof.
  intros Hall. unfold orderProviders. simpl.
  apply fold_order_step_head; [exact Hall |].
  destruct (order_step_split [] p0) as [n ->]. now destruct n.
Qed.

Lemma order_step_sublist (s results : list ApiProvider) (p : ApiProvider) :
  s `sublist_of` results -> s `sublist_of` order_step results p.
Proof.
  intros Hs. destruct (order_step_split results p) as [n ->].
  rewrite <- (take_drop n results) in Hs.
  etransitivity; [exact Hs |].
  apply sublist_app; [reflexivity |]. now apply sublist_cons.
Qed.

Lemma fold_order_step_sublist (ps s acc : list ApiProvider) :
  s `sublist_of` acc ->
  s ++ List.filter unprioritised ps `sublist_of` fold_left order_step ps acc.
Proof.
  revert s acc. induction ps as [| p ps IH]; intros s acc Hs; simpl.
  - now rewrite app_nil_r.
  - destruct (unprioritised p) eqn:Hp.
    + change (s ++ p :: List.filter unprioritised ps)
        with (s ++ [p] ++ List.filter unprioritised ps).
      rewrite app_assoc. apply IH.
      unfold order_step. unfold unprioritised in Hp. rewrite Hp.
      apply sublist_app; [exact Hs | reflexivity].
    + apply IH. now apply order_step_sublist.
Qed.

(** X3: the providers that have no priority, or priority 0, come in the
    computed order in the order in which they are stored: priorities of
    other providers insert between them and never swap them. *)
Theorem orderProviders_keeps_unprioritised_order (ps : list ApiProvider) :
  List.filter unprioritised ps `sublist_of` orderProviders ps.
Proof. apply (fold_order_step_sublist ps [] []). reflexivity. Qed.

Lemma fold_order_step_plain (ps acc : list ApiProvider) :
  Forall (fun p => unprioritised p = true) ps ->
  fold_left order_step ps acc = acc ++ ps.
Proof.
  intros Hall. revert acc. induction Hall as [| p ps Hp _ IH]; intros acc; simpl.
  - now rewrite app_nil_r.
  - rewrite IH. unfold order_step. unfold unprioritised in Hp. rewrite Hp.
    now rewrite <- app_assoc.
Qed.

(** X4: when every provider has no priority or priority 0, the computed
    order is the stored order. *)
Theorem orderProviders_without_priorities (ps : list ApiProvider) :
  Forall (fun p => unprioritised p = true) ps -> orderProviders ps = ps.
Proof. intros Hall. apply (fold_order_step_plain ps [] Hall). Qed.

(** ** Further properties of the constructor *)

Section ConstructorProperties.
Context {host : Host}.

Lemma every_provider_spec (items : list ArrayItem) :
  match every_provider items with
  | Some ps => items = map ItemProvider ps
  | None => exists v, In (ItemOther v) items
  end.
Proof.
  induction items as [| [p | v] items IH]; simpl.
  - reflexivity.
  - destruct (every_provider items) as [ps |]; simpl.
    + now rewrite IH.
    + destruct IH as [v Hv]. eauto.
  - eauto.
Qed.

(** X5: on an array the constructor throws, and then the TypeError
    "Invalid providers list", exactly when some element is not a provider;
    otherwise it stores the elements of the array, in order, and the
    options as given. *)
Theorem constructor_array (props : RaceInit) (items : list ArrayItem) :
  providers props = ProvidersArray items ->
  match constructor props with
  | inl e =>
      e = TypeError "Invalid providers list" /\ exists v, In (ItemOther v) items
  | inr race =>
      items = map ItemProvider (_providers race) /\ _options race = props
      /\ forall v, ~ In (ItemOther v) items
  end.
Proof.
  intros H. unfold constructor. rewrite H.
  pose proof (every_provider_spec items) as Hspec.
  destruct (every_provider items) as [ps |]; simpl.
  - repeat split; [exact Hspec |].
    intros v Hin. rewrite Hspec in Hin. apply in_map_iff in Hin.
    destruct Hin as (p & Hp & _). discriminate.
  - now split.
Qed.

End ConstructorProperties.

(** ** Further properties of an attempt *)

Section AttemptProperties.
Context {host : Host}.

Lemma calls_app (l1 l2 : list ReqEvent) : calls (l1 ++ l2) = calls l1 ++ calls l2.
Proof. unfold calls. apply List.filter_app. Qed.

Lemma calls_none (evs : list ReqEvent) :
  Forall (fun ev => is_call ev = false /\ ev <> EvAbort /\ ev <> EvTimerPending
                    /\ forall d, ev <> EvSetTimeout d) evs ->
  calls evs = [].
Proof.
  induction 1 as [| ev evs (Hc & _) _ IH]; [reflexivity |].
  unfold calls in *. simpl. now rewrite Hc.
Qed.

(** The transport calls of an attempt. *)
Lemma request_calls_eq opts p (w : World) c evs w' :
  request opts p w = (c, evs, w') -> calls evs = attempt_calls opts p.
Proof.
  intros H. unfold attempt_calls.
  apply request_split in H
    as [(e & -> & ->) | (h & c0 & evs0 & w1 & evs1 & -> & Hg & -> & H1)];
    [reflexivity |].
  rewrite calls_app, (calls_none evs1 H1), app_nil_r.
  apply getPromise_events in Hg. simpl in Hg.
  destruct (transport_is_call opts p h (request_body (http_body h))
              (negb (falsy_number (timeoutPerAttempt opts)))) as [Hc _].
  unfold calls.
  destruct Hg as [[-> _] | [(_ & -> & _) | (_ & -> & _)]];
    simpl; now rewrite Hc.
Qed.

(** X6: the one [fetch] of an attempt carries the method and the headers
    of the provider, and a body only for a truthy plain object: no body
    is sent for [null] or another falsy value, for a string, a number or
    a boolean, or for an array or another object that [isPlainObject]
    refuses, and a plain object is sent as the string that
    [jsonSafeStringify] gives, or as "{}" when it gives none. *)
Theorem fetch_call_of_attempt opts p (w : World) c evs w' url init :
  request opts p w = (c, evs, w') ->
  In (EvFetch url init) evs ->
  init_method init = _method p
  /\ init_headers init = _headers p
  /\ init_signal init = negb (falsy_number (timeoutPerAttempt opts))
  /\ (_body p = None -> init_body init = None)
  /\ (_body p = Some JNull -> init_body init = None)
  /\ (forall v, _body p = Some v -> truthy v = false -> init_body init = None)
  /\ (forall v, _body p = Some v -> typeof_object v = false ->
                init_body init = None)
  /\ (forall v, _body p = Some v -> isPlainObject v = false ->
                init_body init = None)
  /\ (forall v, _body p = Some v ->
                truthy v = true -> typeof_object v = true ->
                isPlainObject v = true ->
                init_body init = Some (default "{}" (jsonSafeStringify v)))
  /\ (forall s, init_body init = Some s ->
                exists v, _body p = Some v /\ truthy v = true
                          /\ typeof_object v = true /\ isPlainObject v = true
                          /\ s = default "{}" (jsonSafeStringify v)).
Proof.
  intros Hreq Hin.
  assert (In (EvFetch url init) (calls evs)) as Hcall.
  { unfold calls. apply filter_In. now split. }
  rewrite (request_calls_eq _ _ _ _ _ _ Hreq) in Hcall.
  unfold attempt_calls, http in Hcall.
  destruct (new_URL (_pathname p) (_url p)) as [e | u]; [contradiction |].
  destruct Hcall as [Hcall | []]. unfold transport in Hcall.
  destruct (proxy_symbol opts), (proxy_string opts); try discriminate.
  simpl in Hcall. inversion Hcall; subst. simpl.
  split; [reflexivity |]. split; [reflexivity |]. split; [reflexivity |].
  split; [| split; [| split; [| split; [| split; [| split]]]]].
  - intros ->. reflexivity.
  - intros ->. reflexivity.
  - intros v -> Hv. simpl. now rewrite Hv.
  - intros v -> Hv. simpl. rewrite Hv. now rewrite andb_false_r.
  - intros v -> Hv. simpl. rewrite Hv. now rewrite andb_false_r.
  - intros v -> Ht Ho Hp. simpl. now rewrite Ht, Ho, Hp.
  - intros s. destruct (_body p) as [v |]; simpl; [| discriminate].
    destruct (truthy v) eqn:Ht; [| discriminate].
    destruct (typeof_object v) eqn:Ho; [| discriminate].
    destruct (isPlainObject v) eqn:Hp; [| discriminate].
    simpl. intros Hs. inversion Hs. exists v. auto.
Qed.


Lemma parseResponse_not_pending res p (w : World) evs w' :
  parseResponse res p w <> (Pending, evs, w').
Proof.
  unfold parseResponse.
  repeat match goal with
         | |- context [String.eqb (responseType p) ?s] =>
             destruct (String.eqb (responseType p) s)
         end;
    unfold_m;
    try destruct (json res); try destruct (formData res); try destruct (text res);
    discriminate.
Qed.

(** With a timer armed, an attempt always settles. *)
Lemma request_settles opts p (w : World) evs w' :
  falsy_number (timeoutPerAttempt opts) = false ->
  request opts p w <> (Pending, evs, w').
Proof.
  intros HT H. rewrite request_eq in H.
  destruct (http p) as [e | h]; [discriminate |].
  rewrite getPromise_eq, HT, await_race_eq in H.
  destruct (snd (transport opts p h _ true) w) as [reply w1].
  destruct (settlement reply) as [after [e | res] | | e];
    [destruct (transport_first after _) .. | |]; simpl in H; try discriminate.
  destruct (parseResponse _ p w1) as [[c1 evs1] w2] eqn:Hp.
  inversion H; subst. now apply parseResponse_not_pending in Hp.
Qed.

(** X14: when [#parseResponse] throws, no header has been read and the
    world is as before; the error is thrown before any read, or it is the
    very error that the one body reader called rejected with. *)
Theorem parseResponse_failure res p (w : World) e evs w' :
  parseResponse res p w = (Thrown e, evs, w') ->
  ~ In EvHeaders evs
  /\ w' = w
  /\ (evs = []
      \/ (evs = [EvBody ReadJson] /\ json res = inl e)
      \/ (evs = [EvBody ReadText] /\ text res = inl e)
      \/ (evs = [EvBody ReadFormData] /\ formData res = inl e)).
Proof.
  unfold parseResponse.
  repeat match goal with
         | |- context [String.eqb (responseType p) ?s] =>
             destruct (String.eqb (responseType p) s)
         end;
    unfold_m;
    try destruct (json res) eqn:?; try destruct (formData res) eqn:?;
    try destruct (text res) eqn:?;
    intros H; inversion H; subst; simpl; intuition (auto; discriminate).
Qed.

(** X15: no result has a header named [__proto__], and no payload object
    built by the code has a field named [__proto__], whatever the
    transport sends: assigning a string to that key makes no property. *)
Theorem result_has_no_proto_key opts p (w : World) r evs w' :
  request opts p w = (Returned r, evs, w') ->
  responseHeaders r !! "__proto__" = None
  /\ forall d, payload r = PayloadDict d -> d !! "__proto__" = None.
Proof.
  intros H.
  apply request_returned in H as (h & res & evs0 & evs1 & w1 & _ & _ & Hp & _).
  apply parseResponse_returned in Hp as (pl & Hpl & -> & _ & _). simpl. split.
  - unfold collect_headers. now rewrite assign_entries_proto.
  - intros d ->. inversion Hpl; subst; try reflexivity.
    now rewrite assign_entries_proto.
Qed.

End AttemptProperties.

(** ** Further properties of a run *)

Section RunProperties.
Context {host : Host}.

Lemma Trace_head retry p0 rest att c :
  Trace retry (p0 :: rest) att c -> exists c0, head att = Some (p0, c0).
Proof. intros H. inversion H; subst; simpl; eauto. Qed.

(** X2: when every later provider has no priority, priority 0 or a
    priority of at least 1, the provider that is stored first is first in
    the computed order, and every run makes its first attempt on it. *)
Theorem first_stored_is_attempted_first (race : ApiRace) p0 rest :
  _providers race = p0 :: rest ->
  Forall (fun p => forall P, priority p = Some P -> P = 0 \/ 1 <= P) rest ->
  head (orderProviders (_providers race)) = Some p0
  /\ forall (w : World) c log w',
       run race w = (c, log, w') ->
       exists c0, head (attempts log) = Some (p0, c0).
Proof.
  intros Hps Hall. rewrite Hps.
  pose proof (orderProviders_first_stays_first p0 rest Hall) as Hhead.
  split; [exact Hhead |].
  intros w c log w' Hrun. apply run_trace in Hrun as (c0 & _ & Ht).
  rewrite Hps in Ht.
  destruct (orderProviders (p0 :: rest)) as [| q order]; [discriminate |].
  inversion Hhead; subst q. eapply Trace_head. exact Ht.
Qed.

Lemma transport_calls_cons p evs c (log : list RunEvent) :
  transport_calls (Attempted p evs c :: log) = calls evs ++ transport_calls log.
Proof. reflexivity. Qed.

Lemma race_loop_transport_calls opts ps (w : World) c log w' :
  race_loop opts ps w = (c, log, w') ->
  transport_calls log = flat_map (attempt_calls opts) (map fst (attempts log)).
Proof.
  revert w c log w'. induction ps as [| p rest IH]; intros w c log w' H.
  - now inversion H.
  - rewrite race_loop_cons in H.
    destruct (request opts p w) as [[c0 evs] w1] eqn:Hreq.
    apply request_calls_eq in Hreq.
    destruct c0 as [r | err |].
    + inversion H; subst. rewrite transport_calls_cons, Hreq. reflexivity.
    + destruct (read_message err) as [e' | msg].
      { inversion H; subst. rewrite transport_calls_cons, Hreq. reflexivity. }
      destruct (truthy_flag (retryOnFail opts)).
      * destruct (race_loop opts rest w1) as [[c' log'] w2] eqn:Hrest.
        apply IH in Hrest. inversion H; subst.
        rewrite transport_calls_cons, Hreq. simpl. f_equal. exact Hrest.
      * inversion H; subst. rewrite transport_calls_cons, Hreq. reflexivity.
    + inversion H; subst. rewrite transport_calls_cons, Hreq. reflexivity.
Qed.


Lemma attempt_calls_kind opts p :
  Forall (fun ev => is_proxy_call ev = has_proxy opts
                    /\ is_fetch_call ev = negb (has_proxy opts))
    (attempt_calls opts p).
Proof.
  unfold attempt_calls. destruct (http p) as [e | h]; [constructor |].
  constructor; [| constructor]. unfold transport, has_proxy.
  destruct (proxy_symbol opts), (proxy_string opts); now split.
Qed.

(** X9: when a custom transport is configured, under the symbol or under
    the name [$proxy], every transport call of a run goes to it and
    [fetch] is never called; when none is configured, every call is a
    [fetch]. *)
Theorem custom_transport_replaces_fetch (race : ApiRace) (w : World) c log w' :
  run race w = (c, log, w') ->
  Forall (fun ev => is_proxy_call ev = has_proxy (_options race)
                    /\ is_fetch_call ev = negb (has_proxy (_options race)))
    (transport_calls log).
Proof.
  rewrite run_eq.
  destruct (race_loop _ _ w) as [[c0 log0] w0] eqn:Hloop.
  intros H. inversion H; subst.
  apply race_loop_transport_calls in Hloop. rewrite Hloop.
  generalize (map fst (attempts log)). intros ps.
  induction ps as [| p ps IH]; [constructor |]. simpl.
  apply Forall_app. split; [apply attempt_calls_kind | exact IH].
Qed.

Lemma request_proxy_string opts f g p :
  proxy_symbol opts = Some f ->
  request (with_proxy_string opts g) p = request opts p.
Proof.
  intros H. unfold request, getPromise, getProxyPromise. simpl. now rewrite H.
Qed.

Lemma race_loop_proxy_string opts f g ps (w : World) :
  proxy_symbol opts = Some f ->
  race_loop (with_proxy_string opts g) ps w = race_loop opts ps w.
Proof.
  intros H. revert w. induction ps as [| p rest IH]; intros w; [reflexivity |].
  rewrite !race_loop_cons, (request_proxy_string opts f g p H).
  destruct (request opts p w) as [[[r | err |] evs] w1]; try reflexivity.
  destruct (read_message err); [reflexivity |]. simpl. now rewrite IH.
Qed.

(** X10: when a transport is configured under the [$proxy] symbol, the
    one under the name [$proxy] is never consulted: replacing or removing
    it changes neither the result of a run, nor its log, nor its effect
    on the world. *)
Theorem symbol_proxy_takes_precedence (race : ApiRace) f g (w : World) :
  proxy_symbol (_options race) = Some f ->
  run (race_with_proxy_string race g) w = run race w.
Proof.
  intros H. rewrite !run_eq. simpl.
  now rewrite (race_loop_proxy_string _ f g _ w H).
Qed.

Lemma race_loop_settles opts ps (w : World) c log w' :
  falsy_number (timeoutPerAttempt opts) = false ->
  race_loop opts ps w = (c, log, w') -> c <> Pending.
Proof.
  intros HT. revert w c log w'.
  induction ps as [| p rest IH]; intros w c log w' H.
  - inversion H. discriminate.
  - rewrite race_loop_cons in H.
    destruct (request opts p w) as [[[r | err |] evs] w1] eqn:Hreq.
    + inversion H. discriminate.
    + destruct (read_message err) as [e' | msg]; [inversion H; discriminate |].
      destruct (truthy_flag (retryOnFail opts)).
      * destruct (race_loop opts rest w1) as [[c' log'] w2] eqn:Hrest.
        inversion H; subst. eapply IH. exact Hrest.
      * inversion H. discriminate.
    + now apply request_settles in Hreq.
Qed.

(** X11: when [timeoutPerAttempt] is a number other than 0, every run
    settles, whatever the transport calls do: it resolves or rejects even
    if no transport call ever settles (the body readers of a response
    resolve or reject). *)
Theorem run_settles_under_timeout (race : ApiRace) (w : World) c log w' :
  falsy_number (timeoutPerAttempt (_options race)) = false ->
  run race w = (c, log, w') ->
  (exists r, c = Returned r) \/ (exists e, c = Thrown e).
Proof.
  intros HT. rewrite run_eq.
  destruct (race_loop _ _ w) as [[c0 log0] w0] eqn:Hloop.
  intros H. inversion H; subst.
  apply (race_loop_settles _ _ _ _ _ _ HT) in Hloop.
  destruct c0 as [[r |] | e |]; simpl; eauto. contradiction.
Qed.

(** X12: without a per-attempt timeout, a transport call that never
    settles leaves [run()] pending for ever: the attempt neither fails nor
    resolves, no warning is written, and the providers after it are never
    attempted, also with [retryOnFail] on. *)
Theorem run_hangs_without_timeout (race : ApiRace) p rest h reply (w w1 : World) :
  falsy_number (timeoutPerAttempt (_options race)) = true ->
  orderProviders (_providers race) = p :: rest ->
  http p = inr h ->
  snd (transport (_options race) p h (request_body (http_body h)) false) w
  = (reply, w1) ->
  settlement reply = Unsettled ->
  run race w
  = (Pending,
     [Attempted p
        [fst (transport (_options race) p h (request_body (http_body h)) false)]
        Pending],
     w1).
Proof.
  intros HT Horder Hh Hcall Hs.
  rewrite run_eq, Horder, race_loop_cons, request_eq, Hh, getPromise_eq, HT.
  rewrite await_call_eq, Hcall, Hs. reflexivity.
Qed.

Lemma attempt_warnings_thrown retry p err :
  attempt_warnings retry (p, Thrown err)
  = match read_message err with
    | inr msg => failed_msg p msg :: (if retry then [retrying_msg p] else [])
    | inl _ => []
    end.
Proof. reflexivity. Qed.

Lemma race_loop_warnings opts ps (w : World) c log w' :
  race_loop opts ps w = (c, log, w') ->
  warnings log
  = flat_map (attempt_warnings (truthy_flag (retryOnFail opts))) (attempts log).
Proof.
  revert w c log w'. induction ps as [| p rest IH]; intros w c log w' H.
  - now inversion H.
  - rewrite race_loop_cons in H.
    destruct (request opts p w) as [[[r | err |] evs] w1].
    + now inversion H.
    + destruct (read_message err) as [e' | msg] eqn:Hmsg.
      { inversion H; subst. cbn [attempts warnings flat_map app].
        now rewrite attempt_warnings_thrown, Hmsg. }
      destruct (truthy_flag (retryOnFail opts)).
      * destruct (race_loop opts rest w1) as [[c' log'] w2] eqn:Hrest.
        apply IH in Hrest. inversion H; subst.
        cbn [attempts warnings flat_map app]. fold (warnings log').
        fold (attempts log').
        now rewrite attempt_warnings_thrown, Hmsg, Hrest.
      * inversion H; subst. cbn [attempts warnings flat_map app].
        now rewrite attempt_warnings_thrown, Hmsg.
    + now inversion H.
Qed.

(** X13: the warnings of a run are, attempt by attempt, those of its
    failed attempts and nothing else. A failed attempt whose rejection
    value has a [message] to read writes "[ApiRace] name failed with
    error: message", followed with [retryOnFail] on by "[ApiRace] name
    retrying...", also after the last provider, when nothing is left to
    try. A failed attempt whose rejection value is [undefined] or [null]
    writes no warning: it is the last attempt of the run, and [run()]
    rejects with the error of reading [message]. *)
Theorem run_warnings (race : ApiRace) (w : World) c log w' :
  run race w = (c, log, w') ->
  warnings log
  = flat_map (attempt_warnings (truthy_flag (retryOnFail (_options race))))
      (attempts log)
  /\ (forall retry p e msg,
        read_message e = inr msg ->
        attempt_warnings retry (p, Thrown e)
        = ("[ApiRace] " +:+ name p +:+ " failed with error: " +:+ msg)
          :: (if retry then ["[ApiRace] " +:+ name p +:+ " retrying..."] else []))
  /\ (forall p evs e e',
        In (Attempted p evs (Thrown e)) log ->
        read_message e = inl e' ->
        attempt_warnings (truthy_flag (retryOnFail (_options race))) (p, Thrown e)
        = []
        /\ c = Thrown e'
        /\ last (attempts log) = Some (p, Thrown e)).
Proof.
  intros Hrun. split; [| split].
  - rewrite run_eq in Hrun.
    destruct (race_loop _ _ w) as [[c0 log0] w0] eqn:Hloop.
    inversion Hrun; subst. now apply race_loop_warnings in Hloop.
  - intros retry p e msg Hmsg. unfold attempt_warnings. cbn [fst snd].
    now rewrite Hmsg.
  - intros p evs e e' Hin Hmsg. split.
    + unfold attempt_warnings. cbn [fst snd]. now rewrite Hmsg.
    + apply run_trace in Hrun as (c0 & -> & Ht).
      apply in_attempts in Hin.
      destruct (Trace_unreadable_inv _ _ _ _ _ _ _ Ht Hin Hmsg) as [-> Hlast].
      now split.
Qed.

End RunProperties.

(** ** Properties of the search parameters *)

Lemma string_append_assoc (a b c : string) : (a +:+ b) +:+ c = a +:+ b +:+ c.
Proof.
  induction a as [| x a IH]; [reflexivity |].
  change (String x ((a +:+ b) +:+ c) = String x (a +:+ b +:+ c)).
  now rewrite IH.
Qed.

Section SearchParams.
Context {host : Host}.

(** X16: [_encodeSearchParams] escapes the values and writes the keys as
    they are: one parameter whose key embeds "=", an escaped value, "&"
    and another key gives the same query string as the two parameters it
    spells out, so distinct search maps can collide. *)
Theorem encodeSearchParams_keys_unescaped
    (k1 v1 k2 v2 : string) (rest : list (string * string)) :
  _encodeSearchParams
    ((k1 +:+ "=" +:+ encodeURIComponent v1 +:+ "&" +:+ k2, v2) :: rest)
  = _encodeSearchParams ((k1, v1) :: (k2, v2) :: rest).
Proof.
  unfold _encodeSearchParams. simpl.
  destruct (map _ rest) as [| x xs]; simpl;
    now rewrite !string_append_assoc.
Qed.

End SearchParams.

(** ** Properties of the locales *)

Lemma ascii_toLowerCase_inv (c d : Ascii.ascii) :
  ascii_toLowerCase c = d ->
  c = d \/ c = Ascii.ascii_of_nat (Ascii.nat_of_ascii d - 32).
Proof.
  unfold ascii_toLowerCase.
  destruct ((65 <=? Ascii.nat_of_ascii c) && (Ascii.nat_of_ascii c <=? 90))%nat
    eqn:Hup; intros <-; [right | now left].
  apply andb_true_iff in Hup as [_ Hle]. apply Nat.leb_le in Hle.
  rewrite Ascii.nat_ascii_embedding by lia.
  replace (Ascii.nat_of_ascii c + 32 - 32)%nat with (Ascii.nat_of_ascii c) by lia.
  now rewrite Ascii.ascii_nat_embedding.
Qed.

Lemma toLowerCase_two (s : string) (a b : Ascii.ascii) :
  toLowerCase s = String a (String b EmptyString) ->
  exists c1 c2,
    s = String c1 (String c2 EmptyString)
    /\ (c1 = a \/ c1 = Ascii.ascii_of_nat (Ascii.nat_of_ascii a - 32))
    /\ (c2 = b \/ c2 = Ascii.ascii_of_nat (Ascii.nat_of_ascii b - 32)).
Proof.
  destruct s as [| c1 [| c2 [| c3 s]]]; simpl; try discriminate.
  intros H. inversion H as [[H1 H2]].
  exists c1, c2. split; [reflexivity |].
  split; now apply ascii_toLowerCase_inv.
Qed.

(** X17: [isLocale] accepts the five locale codes in any mix of upper and
    lower case, and nothing else: not the empty string, not a code with
    spaces around it, not a longer tag such as "en-US". *)
Theorem isLocale_accepts (s : string) :
  isLocale s = true <->
  In s ["en"; "En"; "eN"; "EN"; "es"; "Es"; "eS"; "ES"; "fr"; "Fr"; "fR"; "FR";
        "it"; "It"; "iT"; "IT"; "pt"; "Pt"; "pT"; "PT"].
Proof.
  split.
  - unfold isLocale. simpl. rewrite !orb_true_iff.
    intros [H | [H | [H | [H | [H | H]]]]]; try discriminate;
      apply String.eqb_eq, toLowerCase_two in H;
      destruct H as (c1 & c2 & -> & [-> | ->] & [-> | ->]);
      simpl; repeat (first [left; reflexivity | right]).
  - intros H. simpl in H.
    repeat (destruct H as [<- | H]; [reflexivity |]). contradiction.
Qed.

Lemma set_locale_valid (m : CoreModule) (l : string) :
  isLocale (locale m) = true -> isLocale (locale (set_locale m l)) = true.
Proof.
  intros Hm. unfold set_locale. destruct (isLocale l) eqn:Hl; simpl; assumption.
Qed.

Lemma new_Module_valid (props : option (option string)) :
  isLocale (locale (new_Module props)) = true.
Proof.
  destruct props as [[l |] |]; simpl; try reflexivity.
  destruct (negb (String.eqb l EmptyString) && isLocale l) eqn:H; simpl;
    [| reflexivity].
  now apply andb_true_iff in H as [_ H].
Qed.

Lemma fold_set_locale (ls : list string) (m : CoreModule) :
  locale (fold_left set_locale ls m)
  = default (locale m) (last (List.filter isLocale ls)).
Proof.
  revert m. induction ls as [| l ls IH]; intros m; simpl; [reflexivity |].
  rewrite IH. unfold set_locale. destruct (isLocale l) eqn:Hl; simpl.
  - rewrite last_cons. now destruct (last (List.filter isLocale ls)).
  - reflexivity.
Qed.

(** X18: however a module is constructed and whatever strings are then
    assigned to its [locale], the locale it holds passes [isLocale]: it
    is the last assigned string that [isLocale] accepts, kept as it was
    written (not turned into the lower-case code), or, when there is
    none, the locale of the constructor. The constructor keeps a given
    locale that [isLocale] accepts, as it was written, and takes "en"
    in every other case: without properties, without a locale, or with
    one that [isLocale] refuses. *)
Theorem module_locale (props : option (option string)) (ls : list string) :
  let m := fold_left set_locale ls (new_Module props) in
  isLocale (locale m) = true
  /\ locale m
     = default (locale (new_Module props)) (last (List.filter isLocale ls))
  /\ (forall l, props = Some (Some l) -> isLocale l = true ->
                locale (new_Module props) = l)
  /\ ((forall l, props = Some (Some l) -> isLocale l = false) ->
      locale (new_Module props) = "en").
Proof.
  simpl. split; [| split; [| split]].
  - induction ls as [| l ls IH] using rev_ind.
    + apply new_Module_valid.
    + rewrite fold_left_app. simpl. now apply set_locale_valid.
  - apply fold_set_locale.
  - intros l -> Hl. simpl. rewrite Hl.
    destruct l; [discriminate | reflexivity].
  - intros Hno. destruct props as [[l |] |]; simpl; try reflexivity.
    rewrite (Hno l eq_refl). now rewrite andb_false_r.
Qed.

(** ** The further properties on the mock host *)

(** X2 on [priority_race]. *)
Lemma first_stored_is_attempted_first_witness :
  head (orderProviders (_providers priority_race)) = Some (json_provider "bad1")
  /\ forall (w : nat) c log w',
       run priority_race w = (c, log, w') ->
       exists c0, head (attempts log) = Some (json_provider "bad1", c0).
Proof.
  apply (first_stored_is_attempted_first priority_race (json_provider "bad1")
           [mock_provider "p1" (Some 1) "application/json";
            mock_provider "p2" (Some 5) "application/json"]).
  - reflexivity.
  - constructor; [| constructor; [| constructor]];
      simpl; intros P HP; inversion HP; lia.
Defined.

(** X4 on a provider without priority and one with priority 0. *)
Lemma orderProviders_without_priorities_witness :
  orderProviders [plain_provider; zero_provider] = [plain_provider; zero_provider].
Proof.
  apply (orderProviders_without_priorities [plain_provider; zero_provider]).
  repeat constructor.
Defined.

(** X5 on an accepted array and on [bad_array_options]. *)
Lemma constructor_array_witness :
  match constructor (_options fallback_race) with
  | inl e =>
      e = TypeError "Invalid providers list"
      /\ exists v, In (ItemOther v) (map ItemProvider (_providers fallback_race))
  | inr race =>
      map ItemProvider (_providers fallback_race) = map ItemProvider (_providers race)
      /\ _options race = _options fallback_race
      /\ forall v, ~ In (ItemOther v) (map ItemProvider (_providers fallback_race))
  end
  /\ match constructor bad_array_options with
     | inl e =>
         e = TypeError "Invalid providers list"
         /\ exists v, In (ItemOther v) [ItemProvider (json_provider "p1"); ItemOther JNull]
     | inr race =>
         [ItemProvider (json_provider "p1"); ItemOther JNull]
         = map ItemProvider (_providers race)
         /\ _options race = bad_array_options
         /\ forall v, ~ In (ItemOther v)
                        [ItemProvider (json_provider "p1"); ItemOther JNull]
     end.
Proof.
  split.
  - apply (constructor_array (_options fallback_race)). reflexivity.
  - apply (constructor_array bad_array_options). reflexivity.
Defined.

(** X6 on providers whose body is [null], an array and a plain object. *)
Lemma fetch_call_of_attempt_witness :
  (init_method (fetch_init (mock_http (body_provider JNull)) None false) = "POST"
   /\ init_body (fetch_init (mock_http (body_provider JNull)) None false) = None)
  /\ init_body (fetch_init (mock_http (body_provider (JArr [JNum 1]))) None false)
     = None
  /\ exists v,
       _body (body_provider (JObj [("a", JNum 1)])) = Some v
       /\ truthy v = true /\ typeof_object v = true
       /\ @isPlainObject mock_host v = true
       /\ "{}" = default "{}" (@jsonSafeStringify mock_host v).
Proof.
  split; [| split].
  - assert (In (EvFetch "http://mock.test/v1"
                  (fetch_init (mock_http (body_provider JNull)) None false))
              (snd (fst (request (fetch_options None None)
                           (body_provider JNull) 0%nat)))) as Hin.
    { vm_compute. left. reflexivity. }
    destruct (fetch_call_of_attempt (fetch_options None None)
                (body_provider JNull) 0%nat _ _ _ _ _ (triple_eta _) Hin)
      as (Hm & _ & _ & _ & Hnull & _).
    split; [exact Hm | exact (Hnull eq_refl)].
  - assert (In (EvFetch "http://mock.test/v1"
                  (fetch_init (mock_http (body_provider (JArr [JNum 1]))) None false))
              (snd (fst (request (fetch_options None None)
                           (body_provider (JArr [JNum 1])) 0%nat)))) as Hin.
    { vm_compute. left. reflexivity. }
    destruct (fetch_call_of_attempt (fetch_options None None)
                (body_provider (JArr [JNum 1])) 0%nat _ _ _ _ _ (triple_eta _) Hin)
      as (_ & _ & _ & _ & _ & _ & _ & Hplain & _).
    exact (Hplain (JArr [JNum 1]) eq_refl eq_refl).
  - assert (In (EvFetch "http://mock.test/v1"
                  (fetch_init (mock_http (body_provider (JObj [("a", JNum 1)])))
                     (Some "{}") false))
              (snd (fst (request (fetch_options None None)
                           (body_provider (JObj [("a", JNum 1)])) 0%nat)))) as Hin.
    { vm_compute. left. reflexivity. }
    destruct (fetch_call_of_attempt (fetch_options None None)
                (body_provider (JObj [("a", JNum 1)])) 0%nat _ _ _ _ _
                (triple_eta _) Hin)
      as (_ & _ & _ & _ & _ & _ & _ & _ & _ & Honly).
    exact (Honly "{}" eq_refl).
Defined.


(** X14 on a response whose JSON body is broken. *)
Lemma parseResponse_failure_witness :
  ~ In EvHeaders [EvBody ReadJson]
  /\ 0%nat = 0%nat
  /\ ([EvBody ReadJson] = []
      \/ ([EvBody ReadJson] = [EvBody ReadJson] /\ json broken_response = inl broken_json)
      \/ ([EvBody ReadJson] = [EvBody ReadText] /\ text broken_response = inl broken_json)
      \/ ([EvBody ReadJson] = [EvBody ReadFormData]
          /\ formData broken_response = inl broken_json)).
Proof.
  apply (@parseResponse_failure mock_host broken_response (json_provider "p1")
           0%nat broken_json [EvBody ReadJson] 0%nat).
  vm_compute. reflexivity.
Defined.

(** X15 on the mock transport. *)
Lemma result_has_no_proto_key_witness :
  responseHeaders (json_result "p1") !! "__proto__" = None
  /\ forall d, payload (json_result "p1") = PayloadDict d -> d !! "__proto__" = None.
Proof.
  apply (result_has_no_proto_key (timeout_options None) (json_provider "p1")
           0%nat (json_result "p1")
           [EvProxy (json_provider "p1") false; EvBody ReadJson; EvHeaders] 1%nat).
  vm_compute. reflexivity.
Defined.


(** X9 on [fallback_race]. *)
Lemma custom_transport_replaces_fetch_witness :
  Forall (fun ev => is_proxy_call ev = has_proxy (_options fallback_race)
                    /\ is_fetch_call ev = negb (has_proxy (_options fallback_race)))
    (transport_calls (snd (fst (run fallback_race 0%nat)))).
Proof.
  exact (custom_transport_replaces_fetch fallback_race 0%nat _ _ _ (triple_eta _)).
Defined.

(** X10 on [silent_race], whose string-keyed transport is removed. *)
Lemma symbol_proxy_takes_precedence_witness :
  run (race_with_proxy_string silent_race None) 0%nat = run silent_race 0%nat.
Proof.
  exact (symbol_proxy_takes_precedence silent_race silent_runner None 0%nat eq_refl).
Defined.

(** X11 on a slow provider under a timeout of 50 ms. *)
Lemma run_settles_under_timeout_witness :
  (exists r,
      fst (fst (run (mock_race [json_provider "slow1"] (Some 50) (Some true)) 0%nat))
      = Returned r)
  \/ (exists e,
        fst (fst (run (mock_race [json_provider "slow1"] (Some 50) (Some true)) 0%nat))
        = Thrown e).
Proof.
  exact (run_settles_under_timeout
           (mock_race [json_provider "slow1"] (Some 50) (Some true)) 0%nat _ _ _
           eq_refl (triple_eta _)).
Defined.

(** X12 on [silent_race]. *)
Lemma run_hangs_without_timeout_witness :
  run silent_race 0%nat
  = (Pending,
     [Attempted (json_provider "p1")
        [fst (transport (_options silent_race) (json_provider "p1")
                (mock_http (json_provider "p1"))
                (@request_body mock_host (http_body (mock_http (json_provider "p1"))))
                false)]
        Pending],
     1%nat).
Proof.
  exact (run_hangs_without_timeout silent_race (json_provider "p1")
           [json_provider "p2"] (mock_http (json_provider "p1"))
           {| settlement := Unsettled; on_abort := None |} 0%nat 1%nat
           eq_refl eq_refl eq_refl eq_refl eq_refl).
Defined.

(** X13 on [failing_race], and on a transport that rejects with
    [undefined]. *)
Lemma run_warnings_witness :
  warnings (snd (fst (run failing_race 0%nat)))
  = flat_map (attempt_warnings (truthy_flag (retryOnFail (_options failing_race))))
      (attempts (snd (fst (run failing_race 0%nat))))
  /\ attempt_warnings true (json_provider "bad1", Thrown refused)
     = ["[ApiRace] bad1 failed with error: connection refused";
        "[ApiRace] bad1 retrying..."]
  /\ (attempt_warnings
        (truthy_flag (retryOnFail (_options (rejecting_race Undefined (Some true)))))
        (json_provider "p1", Thrown Undefined)
      = []
      /\ fst (fst (run (rejecting_race Undefined (Some true)) 0%nat))
         = Thrown (TypeError
                     "Cannot read properties of undefined (reading 'message')")
      /\ last (attempts (snd (fst (run (rejecting_race Undefined (Some true))
                                     0%nat))))
         = Some (json_provider "p1", Thrown Undefined)).
Proof.
  split; [| split].
  - exact (proj1 (run_warnings failing_race 0%nat _ _ _ (triple_eta _))).
  - exact (proj1 (proj2 (run_warnings failing_race 0%nat _ _ _ (triple_eta _)))
             true (json_provider "bad1") refused "connection refused" eq_refl).
  - refine (proj2 (proj2 (run_warnings (rejecting_race Undefined (Some true))
                            0%nat _ _ _ (triple_eta _)))
              (json_provider "p1") [EvProxy (json_provider "p1") false] Undefined
              _ _ eq_refl).
    vm_compute. left. reflexivity.
Defined.

(** X17 on "Fr" and on "en-US". *)
Lemma isLocale_accepts_witness :
  isLocale "Fr" = true /\ isLocale "en-US" = false.
Proof.
  split.
  - apply (proj2 (isLocale_accepts "Fr")). simpl. auto 20.
  - destruct (isLocale "en-US") eqn:H; [| reflexivity].
    apply (proj1 (isLocale_accepts "en-US")) in H. simpl in H.
    repeat (destruct H as [H | H]; [discriminate |]). contradiction.
Defined.

(** X18 on a module constructed with "FR", to which "xx", "It" and "zz"
    are assigned, and on one constructed with "en-US". *)
Lemma module_locale_witness :
  (isLocale (locale (fold_left set_locale ["xx"; "It"; "zz"]
                       (new_Module (Some (Some "FR"))))) = true
   /\ locale (fold_left set_locale ["xx"; "It"; "zz"] (new_Module (Some (Some "FR"))))
      = default (locale (new_Module (Some (Some "FR"))))
          (last (List.filter isLocale ["xx"; "It"; "zz"]))
   /\ locale (new_Module (Some (Some "FR"))) = "FR")
  /\ locale (new_Module (Some (Some "en-US"))) = "en".
Proof.
  split.
  - destruct (module_locale (Some (Some "FR")) ["xx"; "It"; "zz"])
      as (Hvalid & Hlast & Hkept & _).
    split; [exact Hvalid |]. split; [exact Hlast |].
    exact (Hkept "FR" eq_refl eq_refl).
  - destruct (module_locale (Some (Some "en-US")) []) as (_ & _ & _ & Hdefault).
    apply Hdefault. intros l Hl. inversion Hl. reflexivity.
Defined.
